(** * lecture-scheduler: the allocation engine of [scheduler.js]

    A shallow embedding of the scheduling engine ([scheduler],
    [calculateConflicts], [assignCourses] with its inner [assign],
    [conflict]), of the form's submit handler, of the functions that read
    the rows of the CSV files ([parseTimeslots], [processCourses],
    [processUnavailability]) and of the cells [displaySchedule] reads,
    followed by their properties.

    Conventions of the embedding.
    - JavaScript numbers that the engine handles are integers or [NaN]
      (they come from [parseInt], from array lengths and from loop counters).
    - A plain JavaScript object used as a dictionary is a list of own
      properties in insertion order: that is the order [for ... in] follows
      for keys that are not array indices, and every key here contains a dot.
      Names inherited from [Object.prototype] ([constructor], [toString],
      ...) are outside the model: [o[k]] is the own property [k] of [o] or
      [undefined].  That is what the code reads when [k] is an own key of
      [o] or is not the name of an inherited member ([inherited_names]);
      every [day.period] token is of that kind.  A property that says what
      the code reads under another name carries that as a hypothesis
      ([reads_own], or a slot given as a [slot_key]).
    - An exception is an explicit result ([Throw]); the only exceptions the
      engine can raise on well-typed inputs are the [TypeError]s of reading
      a slot that the schedule does not have.
    - Course objects are compared by identity in [calculateConflicts]
      ([other !== course]); the course array holds one object per row
      ([processCourses] builds each with [new Course]), so identity is the
      position in the array. *)

From stdpp Require Import base option list list_numbers sorting strings pretty gmap.
From Stdlib Require Import Ascii ZArith Lia.

Local Open Scope Z_scope.

(** ** JavaScript values and built-ins used by the engine *)

Module JS.

(** Integers and [NaN]. *)
Inductive number := NaN | Num (z : Z).

#[global] Instance number_eq_dec : EqDecision number.
Proof. solve_decision. Defined.

(** [Math.max(a, b)]: [NaN] as soon as one argument is. *)
Definition Math_max (a b : number) : number :=
  match a, b with
  | Num x, Num y => Num (Z.max x y)
  | _, _ => NaN
  end.

(** [a < b] and [a > b] on numbers: false as soon as one side is [NaN]. *)
Definition less (a b : number) : bool :=
  match a, b with Num x, Num y => bool_decide (x < y) | _, _ => false end.
Definition greater (a b : number) : bool := less b a.

(** [x || null] for a number [x]: [NaN] and [0] are falsy. *)
Definition or_null (x : number) : option Z :=
  match x with
  | NaN => None
  | Num z => if bool_decide (z = 0) then None else Some z
  end.

(** Truthiness of a value that is [null] or a number. *)
Definition truthy (x : option Z) : bool :=
  match x with
  | None => false
  | Some z => negb (bool_decide (z = 0))
  end.

(** A plain object: its own properties, in insertion order. *)
Definition object (V : Type) : Type := list (string * V).

(** [o[k]]: [None] stands for [undefined]. *)
Fixpoint get {V} (k : string) (o : object V) : option V :=
  match o with
  | [] => None
  | (k', v) :: o' => if decide (k' = k) then Some v else get k o'
  end.

(** [o[k] = v]: an existing property keeps its place, a new one is added
    last. *)
Fixpoint set {V} (k : string) (v : V) (o : object V) : object V :=
  match o with
  | [] => [(k, v)]
  | (k', v') :: o' =>
      if decide (k' = k) then (k', v) :: o' else (k', v') :: set k v o'
  end.

(** The keys a [for (k in o)] loop visits, in order. *)
Definition keys {V} (o : object V) : list string := o.*1.

(** [s.split(sep)] for a one-character separator. *)
Fixpoint split (sep : ascii) (s : string) : list string :=
  match s with
  | EmptyString => [EmptyString]
  | String c s' =>
      if decide (c = sep) then EmptyString :: split sep s'
      else match split sep s' with
           | piece :: pieces => String c piece :: pieces
           | [] => [String c EmptyString]
           end
  end.

Definition digit (c : ascii) : option N :=
  let n := N_of_ascii c in
  if bool_decide (48 ≤ n ≤ 57)%N then Some (n - 48)%N else None.

(** The value of the longest prefix of decimal digits, if there is one. *)
Fixpoint digits (s : string) (acc : option N) : option N :=
  match s with
  | EmptyString => acc
  | String c s' =>
      match digit c with
      | Some d => digits s' (Some (10 * default 0%N acc + d)%N)
      | None => acc
      end
  end.

(** [parseInt(x)] where [x] is a string of the form the engine passes to
    it, or [undefined] ([None]): the leading decimal digits, [NaN] when
    there is none.  The built-in also skips leading white space and
    accepts a sign and a [0x] prefix; the engine calls it on the second
    dot-separated piece of a schedule key only, which [scheduler] writes
    as a decimal numeral. *)
Definition parseInt (x : option string) : number :=
  match x with
  | None => NaN
  | Some s => match digits s None with
              | Some n => Num (Z.of_N n)
              | None => NaN
              end
  end.

(** What a [try] block evaluates to: a value, or a thrown exception. *)
Inductive exn := TypeError (message : string).

Definition message (e : exn) : string :=
  match e with TypeError m => m end.

Inductive completion (A : Type) : Type :=
  | Normal (a : A)
  | Throw (e : exn).
#[global] Arguments Normal {A} a.
#[global] Arguments Throw {A} e.

#[global] Instance completion_ret : MRet completion := λ A a, Normal a.
#[global] Instance completion_bind : MBind completion := λ A B f m,
  match m with
  | Normal a => f a
  | Throw e => Throw e
  end.

(** Reading a property of [undefined], and iterating over it. *)
Definition property_of {A} (what : string) (x : option A) : completion A :=
  match x with
  | Some a => Normal a
  | None => Throw (TypeError ("Cannot read properties of undefined (reading '" +:+ what +:+ "')"))
  end.

Definition iterable {A} (x : option A) : completion A :=
  match x with
  | Some a => Normal a
  | None => Throw (TypeError "undefined is not iterable")
  end.

End JS.

Import JS.

(** ** The data model *)

(** [class Course]; [section] is a [Set] of strings. *)
Record Course : Type := mkCourse {
  id : Z;
  name : string;
  teacher : string;
  section : gset string;
  lectures : Z;
  priority : Z;
  prefs : list string;
  conflicts : Z
}.

Definition with_conflicts (n : Z) (c : Course) : Course :=
  mkCourse (id c) (name c) (teacher c) (section c) (lectures c) (priority c)
           (prefs c) n.

(** The optional inputs: [rooms] is [null] or a number, [unavail] is [null]
    or an object from teacher names to arrays of slot tokens (never
    enumerated, so an unordered map). *)
Definition Rooms : Type := option Z.
Definition Unavail : Type := option (gmap string (list string)).

(** The key of a slot in the schedule object: the template literal
    [`${day}.${period}`]. *)
Definition slot_key (day period : Z) : string :=
  pretty day +:+ "." +:+ pretty period.

(** Strings of decimal digits, and strings without a dot: what the two
    pieces of a slot key are. *)
Fixpoint numeral (s : string) : bool :=
  match s with
  | EmptyString => true
  | String c s' => bool_decide (is_Some (digit c)) && numeral s'
  end.

Fixpoint dot_free (s : string) : bool :=
  match s with
  | EmptyString => true
  | String c s' => negb (bool_decide (c = "."%char)) && dot_free s'
  end.

(** ** [conflict] (lines 109-112) *)

Definition conflict (course1 course2 : Course) : bool :=
  bool_decide (teacher course1 = teacher course2)
  || existsb (λ s, bool_decide (s ∈ section course2)) (elements (section course1)).

(** ** [calculateConflicts] (lines 49-62) *)

(** The [reduce] of lines 52-53 and 58-59 for the course at position [i]:
    every other position that conflicts adds [weight]. *)
Definition conflict_sum (weight : Z) (courses : list Course) (i : nat) (course : Course) : Z :=
  foldl (λ sum '(j, other),
           if negb (bool_decide (j = i)) && conflict course other
           then sum + weight else sum)
        0 (imap pair courses).

(** [(unavail[course.teacher] || []).length], for a teacher whose name is an
    own key of [unavail] or is not the name of an inherited member. *)
Definition unavailable_count (u : gmap string (list string)) (course : Course) : Z :=
  Z.of_nat (length (default [] (u !! teacher course))).

Definition calculateConflicts (courses : list Course) (unavail : Unavail) : list Course :=
  match unavail with
  | Some u =>
      imap (λ i course,
              with_conflicts (conflict_sum 2 courses i course + unavailable_count u course) course)
           courses
  | None =>
      imap (λ i course, with_conflicts (conflict_sum 1 courses i course) course) courses
  end.

(** ** The ordering of line 36 *)

(** The comparator
    [a.priority - b.priority || b.conflicts - a.conflicts || a.id - b.id]. *)
Definition compare_courses (a b : Course) : Z :=
  let d := priority a - priority b in
  if bool_decide (d = 0) then
    let d := conflicts b - conflicts a in
    if bool_decide (d = 0) then id a - id b else d
  else d.

(** [Array.prototype.sort] is stable: an element stays before the later
    elements it does not compare greater than. *)
Fixpoint sort_insert {A} (cmp : A → A → Z) (x : A) (l : list A) : list A :=
  match l with
  | [] => [x]
  | y :: l' => if bool_decide (cmp x y ≤ 0) then x :: l else y :: sort_insert cmp x l'
  end.

Definition sort {A} (cmp : A → A → Z) (l : list A) : list A :=
  foldr (sort_insert cmp) [] l.

(** The course sequence handed to [assignCourses]. *)
Definition ordered_courses (courses : list Course) (unavail : Unavail) : list Course :=
  sort compare_courses (calculateConflicts courses unavail).

(** ** [assignCourses] (lines 64-107) *)

(** The variables the inner function [assign] updates. *)
Record alloc : Type := mkAlloc {
  schedule : object (list Course);
  periods : number
}.

Section allocation.
Context (rooms : Rooms) (unavail : Unavail).

(** Line 69: is the slot full?  [schedule[slot].length] is read only when
    [rooms] is truthy.  The slot is a key of the schedule or a token that is
    not the name of an inherited member, as every [day.period] token is. *)
Definition room_full (slot : string) (st : alloc) : completion bool :=
  if truthy rooms then
    occ ← property_of "length" (get slot (schedule st));
    Normal (bool_decide (Some (Z.of_nat (length occ)) = rooms))
  else Normal false.

(** Line 70: is the slot listed as unavailable for the teacher?  The
    teacher's name is an own key of [unavail] or is not the name of an
    inherited member. *)
Definition teacher_unavailable (course : Course) (slot : string) : bool :=
  match unavail with
  | Some u =>
      match u !! teacher course with
      | Some slots => bool_decide (slot ∈ slots)
      | None => false
      end
  | None => false
  end.

(** [assign(course, slot)] (lines 68-77). *)
Definition assign (course : Course) (slot : string) (st : alloc) : completion (bool * alloc) :=
  full ← room_full slot st;
  if (full : bool) then Normal (false, st)
  else if teacher_unavailable course slot then Normal (false, st)
  else
    occ ← iterable (get slot (schedule st));
    if existsb (conflict course) occ then Normal (false, st)
    else
      Normal (true,
              mkAlloc (set slot (occ ++ [course]) (schedule st))
                      (Math_max (periods st) (parseInt (split "." slot !! 1%nat)))).

(** The loop of lines 83-88 over the preferred slots. *)
Fixpoint allot_prefs (course : Course) (slots : list string) (st : alloc) (allotted : Z)
    : completion (alloc * Z) :=
  match slots with
  | [] => Normal (st, allotted)
  | slot :: slots' =>
      '(ok, st') ← assign course slot st;
      if (ok : bool) then
        let allotted := allotted + 1 in
        if bool_decide (lectures course ≤ allotted) then Normal (st', allotted)
        else allot_prefs course slots' st' allotted
      else allot_prefs course slots' st' allotted
  end.

(** The loop of lines 92-99 over the keys of the schedule, passing over
    the preferred slots. *)
Fixpoint allot_others (course : Course) (slots : list string) (st : alloc) (allotted : Z)
    : completion (alloc * Z) :=
  match slots with
  | [] => Normal (st, allotted)
  | slot :: slots' =>
      if negb (bool_decide (slot ∈ prefs course)) then
        '(ok, st') ← assign course slot st;
        if (ok : bool) then
          let allotted := allotted + 1 in
          if bool_decide (lectures course ≤ allotted) then Normal (st', allotted)
          else allot_others course slots' st' allotted
        else allot_others course slots' st' allotted
      else allot_others course slots' st allotted
  end.

(** Lines 82-89. *)
Definition phase1 (course : Course) (st : alloc) : completion (alloc * Z) :=
  if bool_decide (0 < Z.of_nat (length (prefs course)))
  then allot_prefs course (prefs course) st 0
  else Normal (st, 0).

(** Lines 91-100. *)
Definition phase2 (course : Course) (st : alloc) (allotted : Z) : completion (alloc * Z) :=
  if bool_decide (allotted < lectures course)
  then allot_others course (keys (schedule st)) st allotted
  else Normal (st, allotted).

(** The body of the loop of line 79. *)
Definition allocate (course : Course) (st : alloc) (unassigned : list Course)
    : completion (alloc * list Course) :=
  '(st, allotted) ← phase1 course st;
  '(st, allotted) ← phase2 course st allotted;
  if bool_decide (allotted < lectures course)
  then Normal (st, unassigned ++ [course])
  else Normal (st, unassigned).

Fixpoint allocate_all (courses : list Course) (st : alloc) (unassigned : list Course)
    : completion (alloc * list Course) :=
  match courses with
  | [] => Normal (st, unassigned)
  | course :: courses' =>
      '(st, unassigned) ← allocate course st unassigned;
      allocate_all courses' st unassigned
  end.

Definition assignCourses (courses : list Course) (sched : object (list Course))
    : completion (object (list Course) * number * list Course) :=
  '(st, unassigned) ← allocate_all courses (mkAlloc sched (Num 0)) [];
  Normal (schedule st, periods st, unassigned).

End allocation.

(** ** [scheduler] (lines 24-47) *)

(** The loops of lines 28-32.  The inner loop adds the keys of one period,
    the outer one runs over the periods. *)
Definition add_period (days period : Z) (sched : object (list Course)) : object (list Course) :=
  foldl (λ sched day, set (slot_key day period) [] sched) sched (seqZ 1 days).

Definition add_periods (days bound : Z) : object (list Course) :=
  foldl (λ sched period, add_period days period sched) [] (seqZ 1 bound).

(** The schedule after the loops, or [None] when the outer loop never ends.
    [Math.floor(1000 / days)] is [NaN] for [NaN] (the loop test fails at
    once), [Infinity] for 0 (the test [period <= Infinity] never fails while
    the inner loop does nothing), and the floor of the quotient otherwise
    (negative for negative [days]). *)
Definition init_schedule (days : number) : option (object (list Course)) :=
  match days with
  | NaN => Some []
  | Num d => if bool_decide (d = 0) then None else Some (add_periods d (1000 `div` d))
  end.

(** The array [scheduler] returns. *)
Record result : Type := mkResult {
  r_schedule : object (list Course);
  r_periods : number;
  r_unassigned : list Course;
  r_error : option string
}.

(** The statements of the [try] block after the grid is built (lines 34-43). *)
Definition run (courses : list Course) (sched : object (list Course))
    (rooms : Rooms) (unavail : Unavail) : completion result :=
  let courses := ordered_courses courses unavail in
  '(updatedSchedule, periods, unassigned) ← assignCourses rooms unavail courses sched;
  let error := if bool_decide (0 < Z.of_nat (length unassigned))
               then Some "Unable to schedule all classes." else None in
  Normal (mkResult updatedSchedule periods unassigned error).

(** The [catch] clause (lines 44-46). *)
Definition unexpected (e : exn) : result :=
  mkResult [] (Num 0) []
    (Some ("An unexpected error occurred during scheduling: " +:+ message e)).

Inductive outcome : Type :=
  | Returns (r : result)
  | Diverges.

Definition scheduler (courses : list Course) (days : number) (rooms : Rooms)
    (unavail : Unavail) : outcome :=
  match init_schedule days with
  | None => Diverges
  | Some sched =>
      match run courses sched rooms unavail with
      | Normal r => Returns r
      | Throw e => Returns (unexpected e)
      end
  end.

(** ** The guard of the submit handler (lines 128-146)

    [days] and [rooms_field] are what [parseInt] gives for the two form
    fields; [courses] and [unavail] are what [processCourses] and
    [processUnavailability] give for the files. *)
Inductive submission : Type :=
  | DisplayError (message : string)
  | Scheduled (o : outcome).

Definition submit (days rooms_field : number) (courses : list Course)
    (unavail : Unavail) : submission :=
  let rooms := or_null rooms_field in
  if less days (Num 1) || greater days (Num 7)
     || match rooms with Some r => bool_decide (r < 1) | None => false end
  then DisplayError "Invalid value for days or rooms"
  else Scheduled (scheduler courses days rooms unavail).

(** ** The vocabulary of the specification *)

(** The grid coordinates (day, period) in creation order: periods outermost
    and ascending, days innermost and ascending. *)
Definition grid_coords (days bound : Z) : list (Z * Z) :=
  period ← seqZ 1 bound; day ← seqZ 1 days; [(day, period)].

Definition canonical_slots (days bound : Z) : list string :=
  (λ dp, slot_key dp.1 dp.2) <$> grid_coords days bound.

(** The coordinates of the grid of a run. *)
Definition run_coords (days : number) : list (Z * Z) :=
  match days with
  | NaN => []
  | Num d => grid_coords d (1000 `div` d)
  end.

(** A slot is occupied when its occupancy list is not empty. *)
Definition occupied (sched : object (list Course)) (slot : string) : bool :=
  match get slot sched with
  | Some (_ :: _) => true
  | _ => false
  end.

(** [maxPeriodUsed]: the highest period index among the occupied slots of
    the grid, 0 when there is none. *)
Definition maxPeriodUsed (coords : list (Z * Z)) (sched : object (list Course)) : Z :=
  foldr (λ dp m, if occupied sched (slot_key dp.1 dp.2) then Z.max dp.2 m else m) 0 coords.

(** The state of a run over the grid [coords]: the keys are those of the
    grid and the counter is the highest period used. *)
Definition counts_periods (coords : list (Z * Z)) (st : alloc) : Prop :=
  keys (schedule st) = (λ dp, slot_key dp.1 dp.2) <$> coords
  ∧ periods st = Num (maxPeriodUsed coords (schedule st)).

(** No two entries of an occupancy list conflict. *)
Definition clash_free (occ : list Course) : Prop :=
  ∀ (i j : nat) c1 c2, i ≠ j → occ !! i = Some c1 → occ !! j = Some c2 →
    conflict c1 c2 = false.

(** The order of the specification: priority tier ascending, then conflict
    score descending, then id ascending. *)
Definition precedes (a b : Course) : Prop :=
  priority a < priority b
  ∨ (priority a = priority b
     ∧ (conflicts b < conflicts a
        ∨ (conflicts a = conflicts b ∧ id a < id b))).

(** What a non-positive comparator result says of [a] and [b]. *)
Definition before_or_tied (a b : Course) : Prop := compare_courses a b ≤ 0.

(** Phase 2 as the specification words it: attempt the slots of the grid in
    canonical order, leaving out the preferred ones, and stop once the
    course has its required number of sessions. *)
Section fallback_spec.
Context (rooms : Rooms) (unavail : Unavail).

Fixpoint place_in_order (course : Course) (slots : list string) (st : alloc) (placed : Z)
    : completion (alloc * Z) :=
  match slots with
  | [] => Normal (st, placed)
  | slot :: slots' =>
      '(ok, st') ← assign rooms unavail course slot st;
      let placed := if (ok : bool) then placed + 1 else placed in
      if bool_decide (placed = lectures course) then Normal (st', placed)
      else place_in_order course slots' st' placed
  end.

Definition fallback_spec (days bound : Z) (course : Course) (st : alloc) (placed : Z)
    : completion (alloc * Z) :=
  if bool_decide (placed < lectures course)
  then place_in_order course
         (filter (λ slot, slot ∉ prefs course) (canonical_slots days bound)) st placed
  else Normal (st, placed).

End fallback_spec.

(** The result of a run that returns, and the value of a computation that
    does not throw. *)
Definition returned (o : outcome) : bool :=
  match o with
  | Returns _ => true
  | Diverges => false
  end.

Definition the_result (o : outcome) : result :=
  match o with
  | Returns r => r
  | Diverges => mkResult [] NaN [] None
  end.

Definition completes {A} (m : completion A) : bool :=
  match m with
  | Normal _ => true
  | Throw _ => false
  end.

Definition the_value {A} (d : A) (m : completion A) : A :=
  match m with
  | Normal a => a
  | Throw _ => d
  end.

(** Every slot holds at most [R] courses. *)
Definition within_capacity (R : Z) (sched : object (list Course)) : Prop :=
  ∀ slot occ, get slot sched = Some occ → Z.of_nat (length occ) ≤ R.

(** ** Scores and sessions *)

(** The number of entries of the course array that conflict with [course]
    (the course itself is one of them). *)
Definition conflicting (courses : list Course) (course : Course) : Z :=
  Z.of_nat (length (filter (λ other, conflict course other = true) courses)).

(** The score line 52-54 or 58-59 gives a course of the array. *)
Definition score (courses : list Course) (unavail : Unavail) (course : Course) : Z :=
  match unavail with
  | Some u => 2 * (conflicting courses course - 1) + unavailable_count u course
  | None => conflicting courses course - 1
  end.

(** The names every object inherits from [Object.prototype] in a browser. *)
Definition inherited_names : list string :=
  ["constructor"; "hasOwnProperty"; "isPrototypeOf"; "propertyIsEnumerable";
   "toLocaleString"; "toString"; "valueOf"; "__proto__"; "__defineGetter__";
   "__defineSetter__"; "__lookupGetter__"; "__lookupSetter__"].

(** [unavail[name]] reads a property of the object's own, or nothing: the
    name has an entry, or it is not the name of an inherited member.  This
    is where the lookups of lines 54 and 70 are the ones of the model. *)
Definition reads_own (unavail : Unavail) (name : string) : Prop :=
  match unavail with
  | None => True
  | Some u => is_Some (u !! name) ∨ name ∉ inherited_names
  end.

#[global] Instance Course_eq_dec : EqDecision Course.
Proof. solve_decision. Defined.

(** The slots in which [course] sits, in key order. *)
Definition sessions (course : Course) (sched : list (string * list Course)) : list string :=
  (filter (λ kv, course ∈ kv.2) sched).*1.

(** What a course's turn may do to a schedule: every list is as it was, or
    has the course appended to it. *)
Definition grown_by (course : Course) (before after : object (list Course)) : Prop :=
  ∀ slot occ', get slot after = Some occ' →
    ∃ occ, get slot before = Some occ ∧ (occ' = occ ∨ occ' = occ ++ [course]).

(** ** [displaySchedule] (lines 214-251)

    The body of the table as the function builds it: one row per period
    from 1 to [periods], one cell per day from 1 to [days], each cell
    holding the courses of [schedule[`${day}.${period}`]] (an empty cell
    for an empty array).  Reading [length] of a slot the schedule does not
    have throws.  The header row and the markup are left out. *)

(** The values a counter takes in [for (i = 1; i <= n; i++)]. *)
Definition upto (n : number) : list Z :=
  match n with
  | NaN => []
  | Num z => seqZ 1 z
  end.

(** Lines 236-247: one cell. *)
Definition display_cell (sched : object (list Course)) (period day : Z)
    : completion (list Course) :=
  property_of "length" (get (slot_key day period) sched).

Definition displaySchedule (sched : object (list Course)) (days periods : number)
    : completion (list (list (list Course))) :=
  mapM (λ period, mapM (display_cell sched period) (upto days)) (upto periods).

(** ** Reading the rows of the CSV files (lines 114-117 and 178-212)

    A row, as the CSV parser delivers it with [header: true]: the fields
    under the column names, which are strings, each name once; and, when
    the line has more fields than the header, the surplus fields in an
    array under the key [__parsed_extra], which the parser adds after the
    named fields.  A character of a string stands for a code unit below
    256. *)
Record Row : Type := mkRow {
  named : object string;
  parsed_extra : option (list string)
}.

(** The white space and the line terminators that [trim] removes. *)
Definition whitespace (c : ascii) : bool :=
  bool_decide (N_of_ascii c ∈ [9; 10; 11; 12; 13; 32; 160]%N).

Fixpoint trimStart (s : string) : string :=
  match s with
  | EmptyString => EmptyString
  | String c s' => if whitespace c then trimStart s' else s
  end.

Fixpoint trimEnd (s : string) : string :=
  match s with
  | EmptyString => EmptyString
  | String c s' =>
      match trimEnd s' with
      | EmptyString => if whitespace c then EmptyString else String c EmptyString
      | rest => String c rest
      end
  end.

(** [s.trim()]. *)
Definition trim (s : string) : string := trimEnd (trimStart s).

(** Truthiness of a field of a row: [undefined] and the empty string are
    falsy. *)
Definition filled (x : option string) : bool :=
  match x with
  | Some s => negb (bool_decide (s = ""))
  | None => false
  end.

(** [x || ''] for a field. *)
Definition or_empty (x : option string) : string := default "" x.

(** [parseTimeslots] (lines 114-117); [filter(Boolean)] drops the empty
    strings. *)
Definition parseTimeslots (slotsStr : string) : list string :=
  if negb (filled (Some slotsStr)) then []
  else filter (λ slot, filled (Some slot) = true) (trim <$> split "," slotsStr).

(** What [processCourses] ends with: the array of courses, or the message
    of the exception it throws (the [Error] of line 184, or a
    [TypeError]). *)
Inductive loaded (A : Type) : Type :=
  | Loaded (a : A)
  | Rejected (message : string).
#[global] Arguments Loaded {A} a.
#[global] Arguments Rejected {A} message.

#[global] Instance exn_eq_dec : EqDecision exn.
Proof. solve_decision. Defined.
#[global] Instance completion_eq_dec {A} `{EqDecision A} : EqDecision (completion A).
Proof. solve_decision. Defined.

(** The predicate of the [filter] of line 180.  [some] goes through the
    values in order and stops at the first one that is not blank; the array
    of surplus fields comes last and has no [trim]. *)
Definition kept (row : Row) : completion bool :=
  if bool_decide (0 < length (keys (named row))
                      + match parsed_extra row with Some _ => 1 | None => 0 end)%nat
  then
    if existsb (λ value, negb (bool_decide (trim value = ""))) (named row).*2
    then Normal true
    else match parsed_extra row with
         | Some _ => Throw (TypeError "value.trim is not a function")
         | None => Normal false
         end
  else Normal false.

(** [data.filter(...)]: the predicate is called on the rows in order; the
    first exception ends the call. *)
Fixpoint kept_rows (data : list Row) : completion (list Row) :=
  match data with
  | [] => Normal []
  | row :: data' =>
      keep ← kept row;
      rows ← kept_rows data';
      Normal (if (keep : bool) then row :: rows else rows)
  end.

Section ingestion.

(** [parseInt] on the text of a field.  Nothing below depends on what it
    returns. *)
Variable parseInt_text : string → number.

(** [parseInt(x)] for a field that may be [undefined], which has no
    digits. *)
Definition parseInt_field (x : option string) : number :=
  match x with
  | Some s => parseInt_text s
  | None => NaN
  end.

(** The callback of the [map] of line 180 (lines 181-198).  Past the check
    of line 182 the three required fields are strings. *)
Definition course_of_row (index : nat) (fields : object string) : loaded Course :=
  if negb (filled (get "course" fields)) || negb (filled (get "teacher" fields))
     || negb (filled (get "section" fields))
  then Rejected "Missing required fields in course data. Required fields: course, teacher, section, lectures"
  else
    let priority :=
      if filled (get "slots" fields)
         && negb (bool_decide (trim (or_empty (get "slots" fields)) = ""))
      then 1 else 2 in
    Loaded (mkCourse (Z.of_nat index)
              (trim (or_empty (get "course" fields)))
              (trim (or_empty (get "teacher" fields)))
              (list_to_set (trim <$> split "," (or_empty (get "section" fields))))
              (default 1 (or_null (parseInt_field (get "lectures" fields))))
              priority
              (parseTimeslots (or_empty (get "slots" fields)))
              0).

(** [map] calls the callback on the rows in order, each with its index;
    the first exception ends it. *)
Fixpoint courses_of_rows (index : nat) (rows : list Row) : loaded (list Course) :=
  match rows with
  | [] => Loaded []
  | row :: rows' =>
      match course_of_row index (named row) with
      | Rejected message => Rejected message
      | Loaded course =>
          match courses_of_rows (S index) rows' with
          | Rejected message => Rejected message
          | Loaded courses => Loaded (course :: courses)
          end
      end
  end.

(** [processCourses] (lines 178-200). *)
Definition processCourses (data : list Row) : loaded (list Course) :=
  match kept_rows data with
  | Normal rows => courses_of_rows 0 rows
  | Throw e => Rejected (message e)
  end.

End ingestion.

(** [processUnavailability] (lines 203-212); [None] is [null]. *)
Definition processUnavailability (data : option (list Row)) : Unavail :=
  match data with
  | None => None
  | Some rows =>
      Some (foldl (λ (unavail : gmap string (list string)) row,
                     if filled (get "teacher" (named row)) && filled (get "slots" (named row))
                     then <[trim (or_empty (get "teacher" (named row))) :=
                              parseTimeslots (or_empty (get "slots" (named row)))]> unavail
                     else unavail)
                  ∅ rows)
  end.

(** Strings without a given character. *)
Fixpoint free_of (sep : ascii) (s : string) : bool :=
  match s with
  | EmptyString => true
  | String c s' => negb (bool_decide (c = sep)) && free_of sep s'
  end.

(** [tokens.join(',')]. *)
Fixpoint join (sep : string) (tokens : list string) : string :=
  match tokens with
  | [] => ""
  | [token] => token
  | token :: tokens' => token +:+ sep +:+ join sep tokens'
  end.

(** A row that makes the [filter] of line 180 throw: surplus fields, and no
    named field that is not blank. *)
Definition surplus_only (row : Row) : Prop :=
  is_Some (parsed_extra row) ∧ ∀ value, value ∈ (named row).*2 → trim value = "".

(** ** The submit handler from the parsed rows on (lines 119-162)

    [coursesData] and [unavailData] are what the two [readCSV] promises
    resolve to, [unavailData] being [null] when no file was chosen.  What
    the handler ends with: an error box alone, or the error (if any), the
    table and the unassigned list it hands to the display functions. *)
Inductive shown : Type :=
  | ShowsError (message : string)
  | ShowsResult (error : option string) (table : list (list (list Course)))
                (unassigned : list Course)
  | Hangs.

Section handler_model.
Variable parseInt_text : string → number.

(** The guard of lines 133-136, then the callback of [then] (lines 142-158);
    an exception thrown in the callback goes to [catch] (lines 159-161). *)
Definition submit_rows (days rooms_field : number) (coursesData : list Row)
    (unavailData : option (list Row)) : shown :=
  let rooms := or_null rooms_field in
  if less days (Num 1) || greater days (Num 7)
     || match rooms with Some r => bool_decide (r < 1) | None => false end
  then ShowsError "Invalid value for days or rooms"
  else
    match processCourses parseInt_text coursesData with
    | Rejected message => ShowsError ("Error processing files: " +:+ message)
    | Loaded courses =>
        let unavail := processUnavailability unavailData in
        match scheduler courses days rooms unavail with
        | Diverges => Hangs
        | Returns r =>
            match displaySchedule (r_schedule r) days (r_periods r) with
            | Throw e => ShowsError ("Error processing files: " +:+ message e)
            | Normal table => ShowsResult (r_error r) table (r_unassigned r)
            end
        end
    end.

End handler_model.

(** ** Sample inputs *)

Definition algebra : Course := mkCourse 0 "Algebra" "Noether" {["A"]} 2 2 [] 0.
Definition logic : Course := mkCourse 1 "Logic" "Godel" {["B"]} 1 2 [] 0.
Definition topology : Course := mkCourse 2 "Topology" "Noether" {["C"]} 1 1 ["1.1"] 0.
Definition godel_busy : gmap string (list string) := {["Godel" := ["1.1"; "2.1"]]}.
Definition analysis : Course := mkCourse 0 "Analysis" "Cauchy" {["D"]} 1 1 ["1.1"] 0.
Definition geometry : Course := mkCourse 1 "Geometry" "Riemann" {["E"]} 2 1 ["1.1"; "9.9"] 0.
Definition riemann_busy : gmap string (list string) := {["Riemann" := ["9.9"]]}.

(** More sample inputs. *)
Definition seminar : Course := mkCourse 3 "Seminar" "Hilbert" {["S"]} (-1) 1 ["1.1"] 0.
Definition one_slot : alloc := mkAlloc [("1.1", [algebra]); ("2.1", [])] (Num 1).
Definition godel_away : gmap string (list string) :=
  {["Godel" := canonical_slots 5 200]}.
Definition algebra_row : Row :=
  mkRow [("course", " Algebra"); ("teacher", "Noether "); ("section", "A, B");
         ("lectures", "2"); ("slots", "1.1 , 2.1")] None.
Definition logic_row : Row :=
  mkRow [("course", "Logic"); ("teacher", "Godel"); ("section", "B")] (Some ["x"]).
Definition blank_row : Row := mkRow [("course", " ")] None.

(** * Properties *)

(** ** Objects: reading after writing *)

Section object_facts.
Context {V : Type}.
Implicit Types (o : object V) (k : string) (v : V).

Lemma get_set_eq k v o : get k (set k v o) = Some v.
Proof.
  induction o as [|[k' v'] o IH]; simpl; repeat case_decide; simpl;
    repeat case_decide; congruence.
Qed.

Lemma get_set_ne k k' v o : k ≠ k' → get k' (set k v o) = get k' o.
Proof.
  intros Hne. induction o as [|[k0 v0] o IH]; simpl; repeat case_decide; simpl;
    repeat case_decide; congruence.
Qed.

Lemma get_Some_keys k v o : get k o = Some v → k ∈ keys o.
Proof.
  unfold keys. induction o as [|[k' v'] o IH]; simpl; [done|].
  case_decide; subst; intros; [left | right; auto].
Qed.

Lemma get_None_keys k o : get k o = None ↔ k ∉ keys o.
Proof.
  unfold keys. induction o as [|[k' v'] o IH]; simpl.
  - split; [intros _; apply not_elem_of_nil | done].
  - rewrite not_elem_of_cons. case_decide; subst.
    + split; [done | by intros [? _]].
    + rewrite IH. split; [intros ?; split; [congruence | done] | by intros [_ ?]].
Qed.

Lemma keys_set_present k v o : k ∈ keys o → keys (set k v o) = keys o.
Proof.
  unfold keys. induction o as [|[k' v'] o IH]; simpl.
  - intros []%elem_of_nil.
  - case_decide; subst; simpl; [done|].
    intros [?|?]%elem_of_cons; [congruence | f_equal; auto].
Qed.

Lemma set_absent k v o : k ∉ keys o → set k v o = o ++ [(k, v)].
Proof.
  unfold keys. induction o as [|[k' v'] o IH]; simpl; [done|].
  rewrite not_elem_of_cons. intros [? ?]. case_decide; [congruence|].
  f_equal; auto.
Qed.

Lemma get_app_absent k o o' : k ∉ keys o → get k (o ++ o') = get k o'.
Proof.
  unfold keys. induction o as [|[k' v'] o IH]; simpl; [done|].
  rewrite not_elem_of_cons. intros [? ?]. case_decide; [congruence | auto].
Qed.
End object_facts.

(** ** Slot keys: decimal numerals around a dot *)

Section slot_keys.

Lemma digit_pretty_N_char x : (x < 10)%N → digit (pretty_N_char x) = Some x.
Proof.
  intros Hx. destruct x as [|p]; [done|].
  do 4 (destruct p as [p|p|]; try done; try lia).
Qed.

Lemma numeral_pretty_N_go x s : numeral s → numeral (pretty_N_go x s).
Proof.
  revert s. induction (N.lt_wf_0 x) as [x _ IH]; intros s Hs.
  destruct (decide (x = 0)%N) as [->|Hx]; [done|].
  rewrite pretty_N_go_step by lia. apply IH; [apply N.div_lt; lia|].
  simpl. rewrite digit_pretty_N_char by (apply N.mod_lt; lia).
  rewrite bool_decide_eq_true_2 by eauto. done.
Qed.

Lemma digits_pretty_N_go x s acc :
  (0 < x)%N →
  ∃ k, digits (pretty_N_go x s) acc = digits s (Some (default 0 acc * 10 ^ k + x))%N.
Proof.
  revert s acc. induction (N.lt_wf_0 x) as [x _ IH]; intros s acc Hx.
  rewrite pretty_N_go_step by done.
  pose proof (N.div_mod x 10 ltac:(lia)) as Hdm.
  pose proof (N.mod_lt x 10 ltac:(lia)) as Hlt.
  destruct (decide (x `div` 10 = 0)%N) as [Hq|Hq].
  - rewrite Hq, pretty_N_go_0. simpl. rewrite digit_pretty_N_char by done.
    exists 1%N. do 2 f_equal. rewrite N.pow_1_r. lia.
  - destruct (IH (x `div` 10)%N) with
      (s := String (pretty_N_char (x `mod` 10)) s) (acc := acc) as [k Hk].
    { apply N.div_lt; lia. }
    { lia. }
    rewrite Hk. simpl. rewrite digit_pretty_N_char by done. simpl.
    exists (k + 1)%N. do 2 f_equal.
    rewrite N.pow_add_r, N.pow_1_r. lia.
Qed.

Lemma numeral_pretty_Z z : 0 ≤ z → numeral (pretty z).
Proof.
  destruct z as [|p|p]; [done| |lia]. intros _.
  unfold pretty, pretty_Z, pretty, pretty_positive, pretty, pretty_N.
  case_decide; [done|]. by apply numeral_pretty_N_go.
Qed.

Lemma parseInt_pretty_Z z : 0 ≤ z → parseInt (Some (pretty z)) = Num z.
Proof.
  destruct z as [|p|p]; [done| |lia]. intros _.
  unfold parseInt, pretty, pretty_Z, pretty, pretty_positive, pretty, pretty_N.
  case_decide; [done|].
  destruct (digits_pretty_N_go (N.pos p) "" None) as [k ->]; [lia|].
  by simpl.
Qed.

Lemma numeral_dot_free s : numeral s → dot_free s.
Proof.
  induction s as [|c s IH]; simpl; [done|].
  intros [Hc Hs]%andb_prop_elim. apply andb_prop_intro. split; [|auto].
  apply negb_prop_intro. intros Hdot%bool_decide_unpack. subst c.
  by apply bool_decide_unpack in Hc as [? ?].
Qed.

Lemma split_dot_free s : dot_free s → split "." s = [s].
Proof.
  induction s as [|c s IH]; simpl; [done|].
  intros [Hc Hs]%andb_prop_elim. apply negb_prop_elim in Hc.
  case_decide; [subst; by destruct Hc; apply bool_decide_pack|].
  by rewrite IH.
Qed.

Lemma split_dot s t : dot_free s → split "." (s +:+ "." +:+ t) = s :: split "." t.
Proof.
  induction s as [|c s IH]; simpl; [done|].
  intros [Hc Hs]%andb_prop_elim. apply negb_prop_elim in Hc.
  case_decide; [subst; by destruct Hc; apply bool_decide_pack|].
  by rewrite IH.
Qed.

Lemma split_slot_key d p :
  0 ≤ d → 0 ≤ p → split "." (slot_key d p) = [pretty d; pretty p].
Proof.
  intros Hd Hp. unfold slot_key.
  rewrite split_dot by by apply numeral_dot_free, numeral_pretty_Z.
  by rewrite split_dot_free by by apply numeral_dot_free, numeral_pretty_Z.
Qed.

(** Line 75 recovers the period from the key that line 30 wrote. *)
Lemma parseInt_slot_key d p :
  0 ≤ d → 0 ≤ p → parseInt (split "." (slot_key d p) !! 1%nat) = Num p.
Proof.
  intros Hd Hp. rewrite split_slot_key by done. simpl.
  by apply parseInt_pretty_Z.
Qed.

Lemma slot_key_inj d p d' p' :
  0 ≤ d → 0 ≤ p → 0 ≤ d' → 0 ≤ p' →
  slot_key d p = slot_key d' p' → d = d' ∧ p = p'.
Proof.
  intros ? ? ? ? Heq. apply (f_equal (split ".")) in Heq.
  rewrite !split_slot_key in Heq by done.
  injection Heq as Hday Hperiod. split; by apply (inj pretty).
Qed.

End slot_keys.

(** ** The grid built by lines 28-32 *)

Section grid.

Lemma elem_of_grid_coords days bound d p :
  (d, p) ∈ grid_coords days bound ↔ 1 ≤ d ≤ days ∧ 1 ≤ p ≤ bound.
Proof.
  unfold grid_coords. rewrite list_elem_of_bind. split.
  - intros (p' & Hin & Hp'). apply list_elem_of_bind in Hin as (d' & Hin & Hd').
    apply list_elem_of_singleton in Hin. injection Hin as -> ->.
    apply elem_of_seqZ in Hp', Hd'. lia.
  - intros [Hd Hp]. exists p. split; [|apply elem_of_seqZ; lia].
    apply list_elem_of_bind. exists d. split; [by apply list_elem_of_singleton|].
    apply elem_of_seqZ; lia.
Qed.

Lemma NoDup_grid_coords days bound : NoDup (grid_coords days bound).
Proof.
  unfold grid_coords. apply NoDup_bind; [| |apply NoDup_seqZ].
  - intros p1 p2 [d p] _ _ (d1 & H1 & _)%list_elem_of_bind (d2 & H2 & _)%list_elem_of_bind.
    apply list_elem_of_singleton in H1, H2. congruence.
  - intros p _. apply NoDup_bind; [| |apply NoDup_seqZ].
    + intros d1 d2 dp _ _ H1%list_elem_of_singleton H2%list_elem_of_singleton. congruence.
    + intros d _. apply NoDup_singleton.
Qed.

Lemma elem_of_canonical_slots days bound slot :
  slot ∈ canonical_slots days bound ↔
  ∃ d p, slot = slot_key d p ∧ 1 ≤ d ≤ days ∧ 1 ≤ p ≤ bound.
Proof.
  unfold canonical_slots. rewrite list_elem_of_fmap. split.
  - intros ([d p] & -> & Hin%elem_of_grid_coords). by exists d, p.
  - intros (d & p & -> & Hin). exists (d, p). by rewrite elem_of_grid_coords.
Qed.

Lemma NoDup_canonical_slots days bound : NoDup (canonical_slots days bound).
Proof.
  apply NoDup_fmap_2_strong; [|apply NoDup_grid_coords].
  intros [d p] [d' p'] Hin%elem_of_grid_coords Hin'%elem_of_grid_coords Heq.
  simpl in Heq. apply slot_key_inj in Heq as [-> ->]; [done|lia..].
Qed.

(** Writing empty arrays under fresh keys appends them in order. *)
Lemma fill_fresh (ks : list string) (o : object (list Course)) :
  NoDup ks → (∀ k, k ∈ ks → k ∉ keys o) →
  foldl (λ o k, set k [] o) o ks = o ++ ((λ k, (k, [])) <$> ks).
Proof.
  intros Hnd. revert o. induction Hnd as [|k ks Hk Hnd IH]; intros o Hfresh; simpl.
  - by rewrite app_nil_r.
  - rewrite set_absent by (apply Hfresh; left).
    rewrite IH; [by rewrite <-app_assoc|].
    intros k' Hk'. unfold keys. rewrite fmap_app, elem_of_app. simpl.
    intros [Hin|Hin%list_elem_of_singleton]; [|congruence].
    by apply (Hfresh k'); [right|].
Qed.

Lemma add_periods_fill days bound :
  add_periods days bound = foldl (λ o k, set k [] o) [] (canonical_slots days bound).
Proof.
  unfold add_periods, canonical_slots, grid_coords.
  generalize (seqZ 1 bound) as ps. generalize (@nil (string * list Course)) as o.
  intros o ps. revert o. induction ps as [|p ps IH]; intros o; [done|].
  rewrite bind_cons, fmap_app, foldl_app. simpl. rewrite IH. f_equal.
  unfold add_period. generalize (seqZ 1 days) as ds. clear.
  intros ds. revert o. induction ds as [|d ds IH]; intros o; [done|].
  rewrite bind_cons. simpl. by rewrite IH.
Qed.

Lemma add_periods_canonical days bound :
  add_periods days bound = (λ k, (k, [])) <$> canonical_slots days bound.
Proof.
  rewrite add_periods_fill, fill_fresh; [done|apply NoDup_canonical_slots|].
  intros k _. apply not_elem_of_nil.
Qed.

Lemma keys_add_periods days bound :
  keys (add_periods days bound) = canonical_slots days bound.
Proof.
  rewrite add_periods_canonical. unfold keys. rewrite <-list_fmap_compose.
  apply list_fmap_id.
Qed.

Lemma get_add_periods days bound slot occ :
  get slot (add_periods days bound) = Some occ → occ = [].
Proof.
  rewrite add_periods_canonical. generalize (canonical_slots days bound) as ks.
  induction ks as [|k ks IH]; simpl; [done|]. case_decide; [congruence|done].
Qed.

End grid.

(** ** What one call of [assign] does *)

Section assign_facts.
Context (rooms : Rooms) (unavail : Unavail).

Lemma existsb_conflict_false course (occ : list Course) :
  existsb (conflict course) occ = false ↔ ∀ o, o ∈ occ → conflict course o = false.
Proof.
  induction occ as [|o occ IH]; simpl.
  - split; [intros _ o []%elem_of_nil | done].
  - rewrite orb_false_iff, IH. split.
    + intros [Ho Hocc] o' [->|Hin]%elem_of_cons; auto.
    + intros Hall. split; [apply Hall; left | intros o' Hin; apply Hall; by right].
Qed.

(** A call that returns either rejects and changes nothing, or passes the
    three checks of lines 69-73 and appends the course to the slot. *)
Lemma assign_Normal course slot st ok st' :
  assign rooms unavail course slot st = Normal (ok, st') →
  (ok = false ∧ st' = st)
  ∨ (ok = true ∧ ∃ occ,
       get slot (schedule st) = Some occ
       ∧ (∀ r, rooms = Some r → r ≠ 0 → Z.of_nat (length occ) ≠ r)
       ∧ teacher_unavailable unavail course slot = false
       ∧ (∀ o, o ∈ occ → conflict course o = false)
       ∧ st' = mkAlloc (set slot (occ ++ [course]) (schedule st))
                 (Math_max (periods st) (parseInt (split "." slot !! 1%nat)))).
Proof.
  unfold assign. destruct (room_full rooms slot st) as [full|e] eqn:Hfull; [|done].
  simpl. destruct full; [intros [= <- <-]; by left|].
  destruct (teacher_unavailable unavail course slot) eqn:Hun; [intros [= <- <-]; by left|].
  destruct (get slot (schedule st)) as [occ|] eqn:Hget; [|done]. simpl.
  destruct (existsb (conflict course) occ) eqn:Hex; [intros [= <- <-]; by left|].
  intros [= <- <-]. right. split; [done|]. exists occ. split_and!; try done.
  - intros r -> Hr. unfold room_full in Hfull. simpl in Hfull.
    rewrite bool_decide_eq_false_2 in Hfull by done. simpl in Hfull.
    rewrite Hget in Hfull. simpl in Hfull. injection Hfull as Hfull.
    apply bool_decide_eq_false in Hfull. congruence.
  - by apply existsb_conflict_false.
Qed.

(** [assign] never adds or removes a key. *)
Lemma assign_keys course slot st ok st' :
  assign rooms unavail course slot st = Normal (ok, st') →
  keys (schedule st') = keys (schedule st).
Proof.
  intros [[_ ->]|[_ (occ & Hget & _ & _ & _ & ->)]]%assign_Normal; [done|].
  simpl. apply keys_set_present. by eapply get_Some_keys.
Qed.

(** A property of the allocation state that every returning call of
    [assign] preserves holds throughout [assignCourses]. *)
Section invariant.
Context (Inv : alloc → Prop).
Hypothesis Inv_assign : ∀ course slot st ok st',
  Inv st → assign rooms unavail course slot st = Normal (ok, st') → Inv st'.

Lemma allot_prefs_invariant course slots st allotted st' allotted' :
  Inv st →
  allot_prefs rooms unavail course slots st allotted = Normal (st', allotted') →
  Inv st'.
Proof.
  revert st allotted. induction slots as [|slot slots IH]; intros st allotted Hst; simpl.
  - by intros [= <- <-].
  - destruct (assign rooms unavail course slot st) as [[ok st1]|e] eqn:Hassign; [|done].
    simpl. apply Inv_assign in Hassign; [|done].
    destruct ok; [case_bool_decide; [by intros [= <- <-]|]|]; by apply IH.
Qed.

Lemma allot_others_invariant course slots st allotted st' allotted' :
  Inv st →
  allot_others rooms unavail course slots st allotted = Normal (st', allotted') →
  Inv st'.
Proof.
  revert st allotted. induction slots as [|slot slots IH]; intros st allotted Hst; simpl.
  - by intros [= <- <-].
  - destruct (negb (bool_decide (slot ∈ prefs course))); [|by apply IH].
    destruct (assign rooms unavail course slot st) as [[ok st1]|e] eqn:Hassign; [|done].
    simpl. apply Inv_assign in Hassign; [|done].
    destruct ok; [case_bool_decide; [by intros [= <- <-]|]|]; by apply IH.
Qed.

Lemma allocate_invariant course st unassigned st' unassigned' :
  Inv st →
  allocate rooms unavail course st unassigned = Normal (st', unassigned') →
  Inv st'.
Proof.
  intros Hst. unfold allocate.
  destruct (phase1 rooms unavail course st) as [[st1 a1]|e] eqn:H1; [|done]. simpl.
  destruct (phase2 rooms unavail course st1 a1) as [[st2 a2]|e] eqn:H2; [|done]. simpl.
  assert (Inv st1) as Hst1.
  { unfold phase1 in H1. case_bool_decide; [by eapply allot_prefs_invariant|].
    by injection H1 as <- <-. }
  assert (Inv st2) as Hst2.
  { unfold phase2 in H2. case_bool_decide; [by eapply allot_others_invariant|].
    by injection H2 as <- <-. }
  case_bool_decide; by intros [= <- <-].
Qed.

Lemma allocate_all_invariant courses st unassigned st' unassigned' :
  Inv st →
  allocate_all rooms unavail courses st unassigned = Normal (st', unassigned') →
  Inv st'.
Proof.
  revert st unassigned. induction courses as [|course courses IH];
    intros st unassigned Hst; simpl.
  - by intros [= <- <-].
  - destruct (allocate rooms unavail course st unassigned) as [[st1 un1]|e] eqn:Hone;
      [|done].
    simpl. apply IH. by eapply allocate_invariant.
Qed.

End invariant.
End assign_facts.

(** ** How a run ends *)

Lemma scheduler_Returns courses days rooms unavail r :
  scheduler courses days rooms unavail = Returns r →
  ∃ sched, init_schedule days = Some sched
  ∧ ((∃ st unassigned,
        allocate_all rooms unavail (ordered_courses courses unavail)
          (mkAlloc sched (Num 0)) [] = Normal (st, unassigned)
        ∧ r_schedule r = schedule st ∧ r_periods r = periods st
        ∧ r_unassigned r = unassigned)
     ∨ (∃ e, run courses sched rooms unavail = Throw e ∧ r = unexpected e)).
Proof.
  unfold scheduler. destruct (init_schedule days) as [sched|]; [|done].
  intros Hrun. exists sched. split; [done|].
  destruct (run courses sched rooms unavail) as [r'|e] eqn:Hbody.
  - left. injection Hrun as ->. unfold run, assignCourses in Hbody.
    destruct (allocate_all _ _ _ _ _) as [[st unassigned]|e]; [|done].
    simpl in Hbody. injection Hbody as <-. by exists st, unassigned.
  - right. exists e. split; [done|]. by injection Hrun as <-.
Qed.

(** A run on any [days] other than 0 returns. *)
Lemma scheduler_returns courses d rooms unavail :
  d ≠ 0 → ∃ r, scheduler courses (Num d) rooms unavail = Returns r.
Proof.
  intros Hd. unfold scheduler, init_schedule. rewrite bool_decide_eq_false_2 by done.
  destruct (run _ _ _ _); eauto.
Qed.

(** An invariant of [assign] that holds of the empty grid and of the empty
    object holds of the result of every run. *)
Lemma scheduler_invariant (Inv : alloc → Prop) courses days rooms unavail r :
  (∀ course slot st ok st',
     Inv st → assign rooms unavail course slot st = Normal (ok, st') → Inv st') →
  (∀ sched, init_schedule days = Some sched → Inv (mkAlloc sched (Num 0))) →
  Inv (mkAlloc [] (Num 0)) →
  scheduler courses days rooms unavail = Returns r →
  Inv (mkAlloc (r_schedule r) (r_periods r)).
Proof.
  intros Hassign Hinit Hempty (sched & Hsched & Hrun)%scheduler_Returns.
  destruct Hrun as [(st & unassigned & Hall & -> & -> & _)|(e & _ & ->)]; [|done].
  eapply allocate_all_invariant in Hall; [|done|by apply Hinit].
  by destruct st.
Qed.

Lemma returned_the_result o : returned o = true → o = Returns (the_result o).
Proof. by destruct o. Qed.

Lemma completes_the_value {A} (d : A) (m : completion A) :
  completes m = true → m = Normal (the_value d m).
Proof. by destruct m. Qed.

(** ** The empty grid *)

Lemma init_schedule_empty days sched slot occ :
  init_schedule days = Some sched → get slot sched = Some occ → occ = [].
Proof.
  destruct days as [|d]; simpl; [by intros [= <-]|].
  case_bool_decide; [done|]. intros [= <-]. apply get_add_periods.
Qed.

(** ** The pairwise conflict predicate *)

Lemma conflict_true c1 c2 :
  conflict c1 c2 = true ↔
  teacher c1 = teacher c2 ∨ ∃ s, s ∈ section c1 ∧ s ∈ section c2.
Proof.
  unfold conflict. rewrite orb_true_iff, bool_decide_eq_true, existsb_exists.
  apply or_iff_compat_l. split.
  - intros (s & Hin & Hs). exists s. apply bool_decide_eq_true in Hs.
    split; [|done]. by apply elem_of_elements, list_elem_of_In.
  - intros (s & H1 & H2). exists s. rewrite bool_decide_eq_true.
    split; [|done]. by apply list_elem_of_In, elem_of_elements.
Qed.

Lemma conflict_sym c1 c2 : conflict c1 c2 = conflict c2 c1.
Proof.
  apply eq_true_iff_eq. rewrite !conflict_true. split.
  - intros [Ht|(s & ? & ?)]; [by left | right; by exists s].
  - intros [Ht|(s & ? & ?)]; [by left | right; by exists s].
Qed.

Lemma conflict_refl c : conflict c c = true.
Proof. apply conflict_true. by left. Qed.

Lemma conflict_false c1 c2 :
  conflict c1 c2 = false ↔ teacher c1 ≠ teacher c2 ∧ section c1 ## section c2.
Proof.
  rewrite <-not_true_iff_false, conflict_true. split.
  - intros Hno. split; [by intros ?; apply Hno; left|].
    intros s ? ?. apply Hno. right. by exists s.
  - intros [Ht Hs] [?|(s & ? & ?)]; [done|]. by apply (Hs s).
Qed.

(** C2, as amended: [conflict] holds exactly when the teachers are equal or
    the section sets share an element; it is symmetric; and it is reflexive,
    since a course has the same teacher as itself. *)
Theorem conflict_symmetric_and_reflexive c1 c2 :
  (conflict c1 c2 = true ↔
     teacher c1 = teacher c2 ∨ ∃ s, s ∈ section c1 ∧ s ∈ section c2)
  ∧ conflict c1 c2 = conflict c2 c1
  ∧ conflict c1 c1 = true.
Proof. split_and!; [apply conflict_true | apply conflict_sym | apply conflict_refl]. Qed.

(** C2 as stated fails: the predicate is not irreflexive. *)
Lemma conflict_not_irreflexive : conflict algebra algebra = true.
Proof. vm_compute. reflexivity. Qed.

(** ** The hard-conflict invariant *)

Lemma clash_free_nil : clash_free [].
Proof. intros i j c1 c2 _ Hi. by rewrite lookup_nil in Hi. Qed.

Lemma clash_free_snoc occ course :
  clash_free occ → (∀ o, o ∈ occ → conflict course o = false) →
  clash_free (occ ++ [course]).
Proof.
  intros Hocc Hnew i j c1 c2 Hij Hi Hj.
  apply lookup_app_Some in Hi as [Hi|[Hlen1 Hi]];
    apply lookup_app_Some in Hj as [Hj|[Hlen2 Hj]].
  - by eapply Hocc.
  - apply list_lookup_singleton_Some in Hj as [_ <-].
    rewrite conflict_sym. apply Hnew. by eapply list_elem_of_lookup_2.
  - apply list_lookup_singleton_Some in Hi as [_ <-].
    apply Hnew. by eapply list_elem_of_lookup_2.
  - apply list_lookup_singleton_Some in Hi as [Hi _].
    apply list_lookup_singleton_Some in Hj as [Hj _]. lia.
Qed.

Lemma assign_clash_free rooms unavail course slot st ok st' :
  (∀ k occ, get k (schedule st) = Some occ → clash_free occ) →
  assign rooms unavail course slot st = Normal (ok, st') →
  ∀ k occ, get k (schedule st') = Some occ → clash_free occ.
Proof.
  intros Hst [[_ ->]|[_ (occ0 & Hget & _ & _ & Hnew & ->)]]%assign_Normal; [done|].
  simpl. intros k occ. destruct (decide (slot = k)) as [<-|Hne].
  - rewrite get_set_eq. intros [= <-]. apply clash_free_snoc; [by eapply Hst|done].
  - rewrite get_set_ne by done. apply Hst.
Qed.

(** C1: in the schedule a run returns, any two entries of one slot's
    occupancy list are free of conflict: they have different teachers and
    disjoint section sets. *)
Theorem no_conflict_within_a_slot courses days rooms unavail r slot occ
    (i j : nat) c1 c2 :
  scheduler courses days rooms unavail = Returns r →
  get slot (r_schedule r) = Some occ →
  i ≠ j → occ !! i = Some c1 → occ !! j = Some c2 →
  conflict c1 c2 = false ∧ teacher c1 ≠ teacher c2 ∧ section c1 ## section c2.
Proof.
  intros Hrun Hget Hij Hi Hj.
  assert (conflict c1 c2 = false) as Hfree; [|split; [done|by apply conflict_false]].
  assert (∀ k occ, get k (r_schedule r) = Some occ → clash_free occ) as Hinv.
  { apply (scheduler_invariant
             (λ st, ∀ k occ, get k (schedule st) = Some occ → clash_free occ)
             courses days rooms unavail r); [| |done|done].
    - intros course slot' st ok st'. apply assign_clash_free.
    - intros sched Hsched k occ' ->%(init_schedule_empty _ _ _ _ Hsched).
      apply clash_free_nil. }
  by eapply Hinv.
Qed.

Lemma no_conflict_within_a_slot_witness :
  conflict algebra logic = false ∧ teacher algebra ≠ teacher logic
  ∧ section algebra ## section logic.
Proof.
  apply (no_conflict_within_a_slot [algebra; logic] (Num 5) None None
           (the_result (scheduler [algebra; logic] (Num 5) None None))
           "1.1" [algebra; logic] 0 1).
  - apply returned_the_result. vm_compute. reflexivity.
  - vm_compute. reflexivity.
  - lia.
  - reflexivity.
  - reflexivity.
Defined.

(** ** Room capacity *)

Lemma assign_within_capacity R unavail course slot st ok st' :
  1 ≤ R →
  within_capacity R (schedule st) →
  assign (Some R) unavail course slot st = Normal (ok, st') →
  within_capacity R (schedule st').
Proof.
  intros HR Hst [[_ ->]|[_ (occ0 & Hget & Hroom & _ & _ & ->)]]%assign_Normal; [done|].
  simpl. intros k occ. destruct (decide (slot = k)) as [<-|Hne].
  - rewrite get_set_eq. intros [= <-]. rewrite length_app. simpl.
    specialize (Hst _ _ Hget). specialize (Hroom R eq_refl). lia.
  - rewrite get_set_ne by done. apply Hst.
Qed.

Lemma assign_full_slot R unavail course slot st occ :
  R ≠ 0 →
  get slot (schedule st) = Some occ → Z.of_nat (length occ) = R →
  assign (Some R) unavail course slot st = Normal (false, st).
Proof.
  intros HR Hget Hlen. unfold assign, room_full. simpl.
  rewrite bool_decide_eq_false_2 by done. simpl. rewrite Hget. simpl.
  by rewrite bool_decide_eq_true_2 by congruence.
Qed.

(** C3: with a room capacity [R] of at least 1 (the form accepts no other),
    no call of [assign] takes a slot above [R] courses, so every slot of the
    returned schedule holds at most [R]; and a slot that already holds [R]
    courses is rejected whatever the other checks would say. *)
Theorem room_capacity_respected courses days unavail R :
  1 ≤ R →
  (∀ r, scheduler courses days (Some R) unavail = Returns r →
        within_capacity R (r_schedule r))
  ∧ (∀ course slot st ok st',
       within_capacity R (schedule st) →
       assign (Some R) unavail course slot st = Normal (ok, st') →
       within_capacity R (schedule st'))
  ∧ (∀ course slot st occ,
       get slot (schedule st) = Some occ → Z.of_nat (length occ) = R →
       assign (Some R) unavail course slot st = Normal (false, st)).
Proof.
  intros HR. split_and!.
  - intros r Hrun.
    apply (scheduler_invariant (λ st, within_capacity R (schedule st))
             courses days (Some R) unavail r); [| |done|done].
    + intros course slot st ok st'. by apply assign_within_capacity.
    + intros sched Hsched k occ ->%(init_schedule_empty _ _ _ _ Hsched). simpl. lia.
  - intros course slot st ok st'. by apply assign_within_capacity.
  - intros course slot st occ. apply assign_full_slot. lia.
Qed.

Lemma room_capacity_respected_witness : Z.of_nat (length [algebra]) ≤ 1.
Proof.
  apply (proj1 (room_capacity_respected [algebra; logic] (Num 5) None 1 ltac:(lia))
           (the_result (scheduler [algebra; logic] (Num 5) (Some 1) None))
           ltac:(apply returned_the_result; vm_compute; reflexivity)
           "1.1" [algebra]).
  vm_compute. reflexivity.
Defined.

(** ** Teacher unavailability *)

Lemma assign_respects_unavailability rooms unavail course slot st ok st' :
  (∀ k occ c, get k (schedule st) = Some occ → c ∈ occ →
              teacher_unavailable unavail c k = false) →
  assign rooms unavail course slot st = Normal (ok, st') →
  ∀ k occ c, get k (schedule st') = Some occ → c ∈ occ →
             teacher_unavailable unavail c k = false.
Proof.
  intros Hst [[_ ->]|[_ (occ0 & Hget & _ & Hfree & _ & ->)]]%assign_Normal; [done|].
  simpl. intros k occ c. destruct (decide (slot = k)) as [<-|Hne].
  - rewrite get_set_eq. intros [= <-] [Hin|Hin%list_elem_of_singleton]%elem_of_app;
      [by eapply Hst | by subst c].
  - rewrite get_set_ne by done. apply Hst.
Qed.

(** C4: when the unavailability map lists slot [s] for teacher [t], no
    course taught by [t] is in slot [s] of the schedule a run returns. *)
Theorem unavailable_teacher_never_placed courses days rooms u r t slots s occ c :
  scheduler courses days rooms (Some u) = Returns r →
  u !! t = Some slots → s ∈ slots →
  get s (r_schedule r) = Some occ → c ∈ occ →
  teacher c ≠ t.
Proof.
  intros Hrun Ht Hs Hget Hc Hteacher.
  assert (∀ k occ c, get k (r_schedule r) = Some occ → c ∈ occ →
                     teacher_unavailable (Some u) c k = false) as Hinv.
  { apply (scheduler_invariant
             (λ st, ∀ k occ c, get k (schedule st) = Some occ → c ∈ occ →
                               teacher_unavailable (Some u) c k = false)
             courses days rooms (Some u) r); [| |done|done].
    - intros course slot st ok st'. apply assign_respects_unavailability.
    - intros sched Hsched k occ' c' ->%(init_schedule_empty _ _ _ _ Hsched).
      by intros ?%elem_of_nil. }
  specialize (Hinv _ _ _ Hget Hc). simpl in Hinv. rewrite Hteacher, Ht in Hinv.
  by rewrite bool_decide_eq_true_2 in Hinv.
Qed.

Lemma unavailable_teacher_never_placed_witness : teacher algebra ≠ "Godel".
Proof.
  apply (unavailable_teacher_never_placed [algebra; logic] (Num 5) None godel_busy
           (the_result (scheduler [algebra; logic] (Num 5) None (Some godel_busy)))
           "Godel" ["1.1"; "2.1"] "1.1" [algebra] algebra).
  - apply returned_the_result. vm_compute. reflexivity.
  - vm_compute. reflexivity.
  - apply list_elem_of_here.
  - vm_compute. reflexivity.
  - apply list_elem_of_here.
Defined.

(** ** The ordering of the courses *)

Section ordering.

Ltac unfold_compare :=
  unfold before_or_tied, precedes, compare_courses in *;
  repeat case_bool_decide.

Lemma compare_courses_neg a b : compare_courses a b < 0 ↔ precedes a b.
Proof. unfold_compare; lia. Qed.

Lemma compare_courses_zero a b :
  compare_courses a b = 0 →
  priority a = priority b ∧ conflicts a = conflicts b ∧ id a = id b.
Proof. unfold_compare; lia. Qed.

Lemma before_or_tied_total a b : before_or_tied a b ∨ before_or_tied b a.
Proof. unfold_compare; lia. Qed.

Lemma before_or_tied_trans a b c :
  before_or_tied a b → before_or_tied b c → before_or_tied a c.
Proof. unfold_compare; lia. Qed.

Lemma precedes_trans a b c : precedes a b → precedes b c → precedes a c.
Proof. unfold_compare; lia. Qed.

Lemma precedes_irrefl a : ¬ precedes a a.
Proof. unfold_compare; lia. Qed.

Lemma precedes_trichotomy a b : id a ≠ id b → precedes a b ∨ precedes b a.
Proof. unfold_compare; lia. Qed.

Lemma before_or_tied_strict a b : before_or_tied a b → id a ≠ id b → precedes a b.
Proof. unfold_compare; lia. Qed.

Lemma sort_insert_Permutation {A} (cmp : A → A → Z) x l : sort_insert cmp x l ≡ₚ x :: l.
Proof.
  induction l as [|y l IH]; simpl; [done|].
  case_bool_decide; [done|]. rewrite IH. apply Permutation_swap.
Qed.

Lemma sort_Permutation {A} (cmp : A → A → Z) l : sort cmp l ≡ₚ l.
Proof.
  induction l as [|x l IH]; simpl; [done|].
  by rewrite sort_insert_Permutation, IH.
Qed.

Lemma sort_insert_sorted x l :
  StronglySorted before_or_tied l →
  StronglySorted before_or_tied (sort_insert compare_courses x l).
Proof.
  induction 1 as [|y l Hl IH Hy]; simpl.
  - repeat constructor.
  - case_bool_decide as Hxy.
    + constructor; [by constructor|]. constructor; [done|].
      eapply Forall_impl; [done|]. intros z Hz. by eapply before_or_tied_trans.
    + constructor; [done|].
      rewrite sort_insert_Permutation. constructor; [|done].
      by destruct (before_or_tied_total x y).
Qed.

Lemma sort_sorted l : StronglySorted before_or_tied (sort compare_courses l).
Proof.
  induction l as [|x l IH]; simpl; [constructor | by apply sort_insert_sorted].
Qed.

Lemma sorted_strict l :
  NoDup (id <$> l) → StronglySorted before_or_tied l → StronglySorted precedes l.
Proof.
  intros Hnd Hl. induction Hl as [|x l Hl IH Hx]; [constructor|].
  apply NoDup_cons in Hnd as [Hfresh Hnd]. constructor; [auto|].
  apply Forall_forall. intros y Hy. apply before_or_tied_strict.
  - by eapply Forall_forall in Hx.
  - intros Heq. apply Hfresh. rewrite Heq. by apply list_elem_of_fmap_2.
Qed.

Lemma same_id_same_course (l : list Course) a b :
  NoDup (id <$> l) → a ∈ l → b ∈ l → id a = id b → a = b.
Proof.
  induction l as [|x l IH]; simpl; [by intros _ ?%elem_of_nil|].
  intros [Hfresh Hnd]%NoDup_cons [->|Ha]%elem_of_cons [->|Hb]%elem_of_cons Heq; auto.
  - destruct Hfresh. rewrite Heq. by apply list_elem_of_fmap_2.
  - destruct Hfresh. rewrite <-Heq. by apply list_elem_of_fmap_2.
Qed.

(** Scoring writes the [conflicts] field and nothing else. *)
Lemma calculateConflicts_id courses unavail :
  id <$> calculateConflicts courses unavail = id <$> courses.
Proof.
  unfold calculateConflicts. destruct unavail as [u|]; rewrite fmap_imap;
    (etrans; [apply imap_ext | apply imap_const]); done.
Qed.

(** C5: the sequence handed to the allocation loop is the scored course
    list sorted by priority tier ascending, then conflict score descending,
    then id ascending; with unique ids this order is a strict total order on
    the courses of the run and the sorted sequence is the only sorted
    arrangement of them. *)
Theorem courses_sorted_in_a_total_order courses unavail :
  NoDup (id <$> courses) →
  ordered_courses courses unavail ≡ₚ calculateConflicts courses unavail
  ∧ StronglySorted precedes (ordered_courses courses unavail)
  ∧ (∀ a b, compare_courses a b < 0 ↔ precedes a b)
  ∧ (∀ a b, a ∈ calculateConflicts courses unavail →
            b ∈ calculateConflicts courses unavail →
            a = b ∨ precedes a b ∨ precedes b a)
  ∧ (∀ a b c, precedes a b → precedes b c → precedes a c)
  ∧ (∀ a, ¬ precedes a a)
  ∧ (∀ l, l ≡ₚ calculateConflicts courses unavail →
          StronglySorted (λ a b, compare_courses a b ≤ 0) l →
          l = ordered_courses courses unavail).
Proof.
  intros Hnd. rewrite <-(calculateConflicts_id courses unavail) in Hnd.
  unfold ordered_courses. set (scored := calculateConflicts courses unavail) in *.
  split_and!.
  - apply sort_Permutation.
  - apply sorted_strict; [by rewrite sort_Permutation | apply sort_sorted].
  - apply compare_courses_neg.
  - intros a b Ha Hb. destruct (decide (id a = id b)) as [Heq|Hne].
    + left. by eapply same_id_same_course.
    + right. by apply precedes_trichotomy.
  - apply precedes_trans.
  - apply precedes_irrefl.
  - intros l Hperm Hsorted.
    apply (StronglySorted_unique_strong before_or_tied);
      [|done|apply sort_sorted|by rewrite sort_Permutation].
    intros a b Ha Hb Hab Hba.
    apply (same_id_same_course scored); [done|by rewrite <-Hperm| |].
    + by rewrite <-(sort_Permutation compare_courses scored).
    + apply compare_courses_zero. unfold before_or_tied in *.
      assert (compare_courses b a = - compare_courses a b) as Hanti
        by (clear; unfold_compare; lia).
      lia.
Qed.

Lemma courses_sorted_in_a_total_order_witness :
  ordered_courses [algebra; logic; topology] None
    ≡ₚ calculateConflicts [algebra; logic; topology] None
  ∧ StronglySorted precedes (ordered_courses [algebra; logic; topology] None).
Proof.
  assert (NoDup (id <$> [algebra; logic; topology])) as Hnd.
  { apply (bool_decide_unpack _). vm_compute. exact I. }
  destruct (courses_sorted_in_a_total_order [algebra; logic; topology] None Hnd)
    as (Hperm & Hsorted & _).
  split; [exact Hperm | exact Hsorted].
Defined.

End ordering.

(** ** Phase 2 *)

Section fallback.
Context (rooms : Rooms) (unavail : Unavail).

(** The loop of lines 92-99 is the in-order placement over the keys that
    are not preferred slots. *)
Lemma allot_others_place_in_order course slots st allotted :
  allotted < lectures course →
  allot_others rooms unavail course slots st allotted
  = place_in_order rooms unavail course
      (filter (λ slot, slot ∉ prefs course) slots) st allotted.
Proof.
  revert st allotted. induction slots as [|slot slots IH]; intros st allotted Hlt;
    simpl; [done|].
  destruct (decide (slot ∈ prefs course)) as [Hin|Hout].
  - rewrite bool_decide_eq_true_2 by done. simpl.
    rewrite filter_cons_False by (by intros ?). by apply IH.
  - rewrite bool_decide_eq_false_2 by done. simpl.
    rewrite filter_cons_True by done. simpl.
    destruct (assign rooms unavail course slot st) as [[ok st1]|e]; [|done]. simpl.
    destruct ok.
    + destruct (decide (lectures course ≤ allotted + 1)).
      * rewrite bool_decide_eq_true_2 by done.
        by rewrite bool_decide_eq_true_2 by lia.
      * rewrite bool_decide_eq_false_2 by done.
        rewrite bool_decide_eq_false_2 by lia. apply IH. lia.
    + rewrite bool_decide_eq_false_2 by lia. by apply IH.
Qed.

Lemma phase2_fallback_spec d course st placed :
  keys (schedule st) = canonical_slots d (1000 `div` d) →
  phase2 rooms unavail course st placed
  = fallback_spec rooms unavail d (1000 `div` d) course st placed.
Proof.
  intros Hkeys. unfold phase2, fallback_spec. case_bool_decide; [|done].
  rewrite Hkeys. by apply allot_others_place_in_order.
Qed.

(** The keys of the schedule stay those of the grid during a run. *)
Lemma allocate_all_keys courses st unassigned st' unassigned' :
  allocate_all rooms unavail courses st unassigned = Normal (st', unassigned') →
  keys (schedule st') = keys (schedule st).
Proof.
  intros Hall.
  eapply (allocate_all_invariant rooms unavail
            (λ st0, keys (schedule st0) = keys (schedule st))) in Hall; [done| |done].
  intros course slot st0 ok st1 Hst0 Hassign%assign_keys. congruence.
Qed.

End fallback.

Lemma init_schedule_keys d sched :
  init_schedule (Num d) = Some sched → keys sched = canonical_slots d (1000 `div` d).
Proof.
  simpl. case_bool_decide; [done|]. intros [= <-]. apply keys_add_periods.
Qed.

(** ** The period counter *)

Section periods.

Lemma maxPeriodUsed_cons d p coords sched :
  maxPeriodUsed ((d, p) :: coords) sched
  = if occupied sched (slot_key d p)
    then Z.max p (maxPeriodUsed coords sched) else maxPeriodUsed coords sched.
Proof. done. Qed.

Lemma maxPeriodUsed_nonneg coords sched : 0 ≤ maxPeriodUsed coords sched.
Proof.
  induction coords as [|[d p] coords IH]; [done|].
  rewrite maxPeriodUsed_cons. destruct (occupied _ _); lia.
Qed.

(** [maxPeriodUsed] is an upper bound of the occupied periods... *)
Lemma maxPeriodUsed_upper coords sched d p :
  (d, p) ∈ coords → occupied sched (slot_key d p) = true →
  p ≤ maxPeriodUsed coords sched.
Proof.
  induction coords as [|[d' p'] coords IH]; [by intros ?%elem_of_nil|].
  rewrite maxPeriodUsed_cons. intros [[= -> ->]|Hin]%elem_of_cons Hocc.
  - rewrite Hocc. lia.
  - specialize (IH Hin Hocc). destruct (occupied sched (slot_key d' p')); lia.
Qed.

(** ... that an occupied slot attains, unless it is 0. *)
Lemma maxPeriodUsed_attained coords sched :
  maxPeriodUsed coords sched = 0
  ∨ ∃ d, (d, maxPeriodUsed coords sched) ∈ coords
         ∧ occupied sched (slot_key d (maxPeriodUsed coords sched)) = true.
Proof.
  induction coords as [|[d p] coords IH]; [by left|].
  rewrite maxPeriodUsed_cons.
  destruct (occupied sched (slot_key d p)) eqn:Hocc.
  - destruct (Z.max_spec p (maxPeriodUsed coords sched)) as [[Hlt ->]|[Hle ->]].
    + destruct IH as [H0|(d' & Hin & Hocc')]; [by left|].
      right. exists d'. split; [by right|done].
    + right. exists d. split; [left|done].
  - destruct IH as [H0|(d' & Hin & Hocc')]; [by left|].
    right. exists d'. split; [by right|done].
Qed.

Lemma maxPeriodUsed_unoccupied coords sched :
  (∀ slot occ, get slot sched = Some occ → occ = []) →
  maxPeriodUsed coords sched = 0.
Proof.
  intros Hempty. induction coords as [|[d p] coords IH]; [done|].
  rewrite maxPeriodUsed_cons, IH.
  unfold occupied. destruct (get (slot_key d p) sched) as [[|c occ]|] eqn:Hget; try done.
  by apply Hempty in Hget.
Qed.

Lemma occupied_set_eq sched slot occ course :
  occupied (set slot (occ ++ [course]) sched) slot = true.
Proof. unfold occupied. rewrite get_set_eq. by destruct occ. Qed.

Lemma occupied_set_ne sched slot slot' (occ : list Course) :
  slot ≠ slot' → occupied (set slot occ sched) slot' = occupied sched slot'.
Proof. intros Hne. unfold occupied. by rewrite get_set_ne. Qed.

(** Appending a course to the slot at (d0, p0) raises the maximum to at
    least [p0] and no further. *)
Lemma maxPeriodUsed_set coords sched d0 p0 occ course :
  Forall (λ dp, 1 ≤ dp.1 ∧ 1 ≤ dp.2) coords → 1 ≤ d0 → 1 ≤ p0 →
  ((d0, p0) ∈ coords
   ∧ maxPeriodUsed coords (set (slot_key d0 p0) (occ ++ [course]) sched)
     = Z.max (maxPeriodUsed coords sched) p0)
  ∨ (((d0, p0) ∉ coords)
     ∧ maxPeriodUsed coords (set (slot_key d0 p0) (occ ++ [course]) sched)
       = maxPeriodUsed coords sched).
Proof.
  intros Hpos Hd0 Hp0. induction Hpos as [|[d p] coords [Hd Hp] Hpos IH].
  - right. split; [apply not_elem_of_nil|done].
  - simpl in Hd, Hp. rewrite !maxPeriodUsed_cons.
    destruct (decide ((d, p) = (d0, p0))) as [[= -> ->]|Hne].
    + left. split; [left|]. rewrite occupied_set_eq.
      destruct IH as [[_ ->]|[_ ->]];
        destruct (occupied sched (slot_key d0 p0)); lia.
    + assert (slot_key d0 p0 ≠ slot_key d p) as Hkey.
      { intros [-> ->]%slot_key_inj; [done|lia..]. }
      rewrite occupied_set_ne by done.
      destruct IH as [[Hin ->]|[Hout ->]].
      * left. split; [by right|]. destruct (occupied sched (slot_key d p)); lia.
      * right. split; [|done]. rewrite not_elem_of_cons. split; [congruence|done].
Qed.

Lemma assign_counts_periods rooms unavail coords course slot st ok st' :
  Forall (λ dp, 1 ≤ dp.1 ∧ 1 ≤ dp.2) coords →
  counts_periods coords st →
  assign rooms unavail course slot st = Normal (ok, st') →
  counts_periods coords st'.
Proof.
  intros Hpos [Hkeys Hper] Hassign. pose proof (assign_keys _ _ _ _ _ _ _ Hassign) as Hk.
  apply assign_Normal in Hassign as [[_ ->]|[_ (occ & Hget & _ & _ & _ & ->)]]; [done|].
  split; [simpl in *; congruence|]. simpl.
  apply get_Some_keys in Hget as Hin. rewrite Hkeys in Hin.
  apply list_elem_of_fmap in Hin as ([d0 p0] & -> & Hin). simpl.
  pose proof Hin as [Hd0 Hp0]%(proj1 (Forall_forall _ _) Hpos). simpl in Hd0, Hp0.
  rewrite parseInt_slot_key by lia. rewrite Hper. simpl. f_equal.
  destruct (maxPeriodUsed_set coords (schedule st) d0 p0 occ course)
    as [[_ ->]|[Hout _]]; done.
Qed.

Lemma run_coords_positive days : Forall (λ dp, 1 ≤ dp.1 ∧ 1 ≤ dp.2) (run_coords days).
Proof.
  apply Forall_forall. intros [d p]. destruct days as [|n]; simpl.
  - by intros ?%elem_of_nil.
  - intros ?%elem_of_grid_coords. lia.
Qed.

Lemma init_schedule_counts_periods days sched :
  init_schedule days = Some sched → counts_periods (run_coords days) (mkAlloc sched (Num 0)).
Proof.
  intros Hsched. split; simpl.
  - destruct days as [|d]; [by injection Hsched as <-|]. by apply init_schedule_keys.
  - f_equal. symmetry. apply maxPeriodUsed_unoccupied.
    intros slot occ. by eapply init_schedule_empty.
Qed.

(** What every returned result satisfies: the counter is the highest period
    used, and the keys are those of the grid unless the run was aborted. *)
Lemma scheduler_counts_periods courses days rooms unavail r :
  scheduler courses days rooms unavail = Returns r →
  r_periods r = Num (maxPeriodUsed (run_coords days) (r_schedule r))
  ∧ (keys (r_schedule r) = (λ dp, slot_key dp.1 dp.2) <$> run_coords days
     ∨ r_schedule r = []).
Proof.
  intros (sched & Hsched & Hrun)%scheduler_Returns.
  destruct Hrun as [(st & unassigned & Hall & -> & -> & _)|(e & _ & ->)].
  - eapply (allocate_all_invariant rooms unavail (counts_periods (run_coords days)))
      in Hall as [Hkeys Hper]; [by split; [|left]| |by apply init_schedule_counts_periods].
    intros course slot st0 ok st1. apply assign_counts_periods, run_coords_positive.
  - split; [|by right]. simpl. f_equal. symmetry. by apply maxPeriodUsed_unoccupied.
Qed.

(** C7: the [periods] value a run returns is the highest period index
    among the occupied slots of its grid: no occupied slot has a higher
    period, one has exactly that period unless the value is 0, and the
    value is 0 when no slot is occupied. *)
Theorem periods_is_highest_period_used courses days rooms unavail r :
  scheduler courses days rooms unavail = Returns r →
  ∃ m, r_periods r = Num m
  ∧ m = maxPeriodUsed (run_coords days) (r_schedule r)
  ∧ (∀ d p, (d, p) ∈ run_coords days →
            occupied (r_schedule r) (slot_key d p) = true → p ≤ m)
  ∧ (m = 0 ∨ ∃ d, (d, m) ∈ run_coords days
                  ∧ occupied (r_schedule r) (slot_key d m) = true)
  ∧ ((∀ slot occ, get slot (r_schedule r) = Some occ → occ = []) → m = 0).
Proof.
  intros [Hper _]%scheduler_counts_periods.
  exists (maxPeriodUsed (run_coords days) (r_schedule r)). split_and!.
  - done.
  - done.
  - intros d p. apply maxPeriodUsed_upper.
  - apply maxPeriodUsed_attained.
  - apply maxPeriodUsed_unoccupied.
Qed.

Lemma periods_is_highest_period_used_witness :
  ∃ m, r_periods (the_result (scheduler [algebra; logic] (Num 5) (Some 1) None)) = Num m
  ∧ m = maxPeriodUsed (run_coords (Num 5))
          (r_schedule (the_result (scheduler [algebra; logic] (Num 5) (Some 1) None))).
Proof.
  destruct (periods_is_highest_period_used [algebra; logic] (Num 5) (Some 1) None
              (the_result (scheduler [algebra; logic] (Num 5) (Some 1) None)))
    as (m & Hm & Hmax & _).
  - apply returned_the_result. vm_compute. reflexivity.
  - exists m. split; [exact Hm | exact Hmax].
Defined.

End periods.

(** ** The fallback order *)

Lemma Num_inj a b : Num a = Num b → a = b.
Proof. by intros [= ->]. Qed.

(** On a one-day grid with three periods used, only the first three slots
    can be occupied. *)
Lemma one_day_three_periods courses rooms unavail r slot :
  scheduler courses (Num 1) rooms unavail = Returns r →
  r_periods r = Num 3 →
  occupied (r_schedule r) slot = true →
  slot ∈ ["1.1"; "1.2"; "1.3"].
Proof.
  intros [Hmax Hkeys]%scheduler_counts_periods Hperiods Hocc.
  rewrite Hperiods in Hmax. apply Num_inj in Hmax.
  unfold run_coords in *. destruct Hkeys as [Hkeys|Hnil].
  - assert (slot ∈ keys (r_schedule r)) as Hin.
    { unfold occupied in Hocc.
      destruct (get slot (r_schedule r)) eqn:Hget; [|done]. by eapply get_Some_keys. }
    rewrite Hkeys in Hin. apply list_elem_of_fmap in Hin as ([d q] & -> & Hin).
    pose proof (maxPeriodUsed_upper _ _ _ _ Hin Hocc) as Hle.
    apply elem_of_grid_coords in Hin. rewrite <-Hmax in Hle. clear Hmax Hkeys Hocc.
    change ((d, q).1) with d. change ((d, q).2) with q.
    assert (d = 1) as -> by lia.
    assert (q = 1 ∨ q = 2 ∨ q = 3) as [->|[->| ->]] by lia.
    + apply list_elem_of_here.
    + apply list_elem_of_further, list_elem_of_here.
    + do 2 apply list_elem_of_further. apply list_elem_of_here.
  - unfold occupied in Hocc. by rewrite Hnil in Hocc.
Qed.

(** One course of three sessions, without preferences, on one day. *)
Lemma lone_course_takes_first_periods c :
  lectures c = 3 → prefs c = [] →
  ∃ r, scheduler [c] (Num 1) None None = Returns r
  ∧ get "1.1" (r_schedule r) = Some [with_conflicts 0 c]
  ∧ get "1.2" (r_schedule r) = Some [with_conflicts 0 c]
  ∧ get "1.3" (r_schedule r) = Some [with_conflicts 0 c]
  ∧ (∀ slot, occupied (r_schedule r) slot = true → slot ∈ ["1.1"; "1.2"; "1.3"])
  ∧ r_periods r = Num 3 ∧ r_unassigned r = [] ∧ r_error r = None.
Proof.
  destruct c as [i n t s l p ps cs]. intros Hl Hps. simpl in Hl, Hps. subst l ps.
  exists (the_result (scheduler [mkCourse i n t s 3 p [] cs] (Num 1) None None)).
  assert (scheduler [mkCourse i n t s 3 p [] cs] (Num 1) None None
          = Returns (the_result (scheduler [mkCourse i n t s 3 p [] cs] (Num 1) None None)))
    as Hrun.
  { apply returned_the_result. vm_compute. reflexivity. }
  assert (r_periods (the_result (scheduler [mkCourse i n t s 3 p [] cs] (Num 1) None None))
          = Num 3) as Hperiods.
  { vm_compute. reflexivity. }
  split; [exact Hrun|]. do 3 (split; [vm_compute; reflexivity|]).
  split; [|split; [exact Hperiods|split; vm_compute; reflexivity]].
  intros slot. by apply (one_day_three_periods _ _ _ _ _ Hrun Hperiods).
Qed.

(** C6: on a state of a run over the grid of [d] days, phase 2 is the
    fallback of the specification: it does nothing unless the course is
    still short of its required sessions, and otherwise attempts the slots
    in the creation order of the grid (periods outermost, days innermost,
    both ascending), leaves out the preferred slots and stops at the
    placement that completes the course.  A lone course of three sessions
    without preferences, on one day, takes periods 1, 2 and 3, no other
    slot, and nothing is left unassigned. *)
Theorem fallback_follows_creation_order rooms unavail d sched course st placed :
  init_schedule (Num d) = Some sched →
  keys (schedule st) = keys sched →
  keys sched = canonical_slots d (1000 `div` d)
  ∧ phase2 rooms unavail course st placed
    = fallback_spec rooms unavail d (1000 `div` d) course st placed
  ∧ (¬ placed < lectures course →
     phase2 rooms unavail course st placed = Normal (st, placed))
  ∧ (∀ c, lectures c = 3 → prefs c = [] →
       ∃ r, scheduler [c] (Num 1) None None = Returns r
       ∧ get "1.1" (r_schedule r) = Some [with_conflicts 0 c]
       ∧ get "1.2" (r_schedule r) = Some [with_conflicts 0 c]
       ∧ get "1.3" (r_schedule r) = Some [with_conflicts 0 c]
       ∧ (∀ slot, occupied (r_schedule r) slot = true →
                  slot ∈ ["1.1"; "1.2"; "1.3"])
       ∧ r_periods r = Num 3 ∧ r_unassigned r = [] ∧ r_error r = None).
Proof.
  intros Hsched%init_schedule_keys Hkeys. split_and!.
  - done.
  - apply phase2_fallback_spec. congruence.
  - intros Hge. unfold phase2. by rewrite bool_decide_eq_false_2.
  - apply lone_course_takes_first_periods.
Qed.

Lemma fallback_follows_creation_order_witness :
  phase2 None None algebra (mkAlloc (add_periods 5 (1000 `div` 5)) (Num 0)) 0
  = fallback_spec None None 5 (1000 `div` 5) algebra
      (mkAlloc (add_periods 5 (1000 `div` 5)) (Num 0)) 0.
Proof.
  destruct (fallback_follows_creation_order None None 5 (add_periods 5 (1000 `div` 5))
              algebra (mkAlloc (add_periods 5 (1000 `div` 5)) (Num 0)) 0)
    as (_ & Hphase2 & _).
  - reflexivity.
  - reflexivity.
  - exact Hphase2.
Defined.

(** ** Errors *)

Section errors.

(** The engine itself has no guard on [days]: with 0 the loop of line 28
    never ends, and with a negative value the grid is empty. *)
Lemma scheduler_zero_days courses rooms unavail :
  scheduler courses (Num 0) rooms unavail = Diverges.
Proof. done. Qed.

Lemma init_schedule_negative_days d : d < 0 → init_schedule (Num d) = Some [].
Proof.
  intros Hd. simpl. rewrite bool_decide_eq_false_2 by lia.
  unfold add_periods. rewrite seqZ_nil; [done|].
  pose proof (Z.div_mod 1000 d ltac:(lia)). pose proof (Z.mod_neg_bound 1000 d Hd). nia.
Qed.

(** What the handler lets through: a day count from 1 to 7 (or [NaN]) and
    a room capacity of at least 1 (or none). *)
Lemma submit_Scheduled days rooms_field courses unavail o :
  submit days rooms_field courses unavail = Scheduled o →
  o = scheduler courses days (or_null rooms_field) unavail
  ∧ (∀ d, days = Num d → 1 ≤ d ≤ 7)
  ∧ (∀ R, or_null rooms_field = Some R → 1 ≤ R).
Proof.
  unfold submit. destruct (_ || _) eqn:Hguard; [done|]. intros [= <-].
  apply orb_false_iff in Hguard as [[Hlow Hhigh]%orb_false_iff Hrooms].
  split_and!; [done| |].
  - intros d ->. simpl in *. apply bool_decide_eq_false in Hlow, Hhigh. lia.
  - intros R HR. rewrite HR in Hrooms. apply bool_decide_eq_false in Hrooms. lia.
Qed.

(** C8: a form submitted with [days] below 1 is answered with the
    configuration error message; the handler returns before it calls
    [scheduler], so no grid is built and nothing is allocated. *)
Theorem days_below_one_rejected d rooms_field courses unavail :
  d < 1 →
  submit (Num d) rooms_field courses unavail
  = DisplayError "Invalid value for days or rooms".
Proof.
  intros Hd. unfold submit. simpl. by rewrite bool_decide_eq_true_2.
Qed.

Lemma days_below_one_rejected_witness :
  submit (Num 0) NaN [algebra] None = DisplayError "Invalid value for days or rooms".
Proof. apply (days_below_one_rejected 0 NaN [algebra] None). lia. Defined.

(** The [catch] clause turns an exception of the [try] block into a result. *)
Lemma scheduler_catches courses days sched rooms unavail e :
  init_schedule days = Some sched →
  run courses sched rooms unavail = Throw e →
  scheduler courses days rooms unavail = Returns (unexpected e).
Proof. intros Hsched Hrun. unfold scheduler. by rewrite Hsched, Hrun. Qed.

(** C9: an exception raised in the [try] block ends the run with the
    result of the [catch] clause: an empty schedule, 0 periods, no
    unassigned course and an error message.  [scheduler] returns it; it has
    no way to throw. *)
Theorem exception_becomes_error_result courses days sched rooms unavail e :
  init_schedule days = Some sched →
  run courses sched rooms unavail = Throw e →
  ∃ msg, scheduler courses days rooms unavail
         = Returns (mkResult [] (Num 0) [] (Some msg)).
Proof.
  intros Hsched Hrun. eexists. by eapply scheduler_catches.
Qed.

Lemma exception_becomes_error_result_witness :
  ∃ msg, scheduler [analysis; geometry] (Num 501) None None
         = Returns (mkResult [] (Num 0) [] (Some msg)).
Proof.
  apply (exception_becomes_error_result [analysis; geometry] (Num 501)
           (add_periods 501 (1000 `div` 501)) None None
           (TypeError "undefined is not iterable")).
  - reflexivity.
  - vm_compute. reflexivity.
Defined.

(** A token whose day or period lies outside the grid is not a key. *)
Lemma off_grid_slot_absent n sched d p :
  init_schedule (Num n) = Some sched → 0 ≤ d → 0 ≤ p →
  n < d ∨ 1000 `div` n < p →
  get (slot_key d p) sched = None.
Proof.
  intros Hkeys%init_schedule_keys Hd Hp Hout. apply get_None_keys.
  rewrite Hkeys, elem_of_canonical_slots.
  intros (d' & p' & Heq & Hd' & Hp').
  apply slot_key_inj in Heq as [-> ->]; lia.
Qed.

Section missing_slot.
Context (rooms : Rooms) (unavail : Unavail).

Lemma assign_missing_slot_throws course slot st :
  get slot (schedule st) = None →
  truthy rooms = true ∨ teacher_unavailable unavail course slot = false →
  ∃ e, assign rooms unavail course slot st = Throw e.
Proof.
  intros Hget Hor. unfold assign, room_full. rewrite Hget.
  destruct (truthy rooms); simpl; [by eexists|].
  destruct Hor as [? | ->]; [done|]. by eexists.
Qed.

Lemma assign_unavailable_before_lookup course slot st :
  truthy rooms = false → teacher_unavailable unavail course slot = true →
  assign rooms unavail course slot st = Normal (false, st).
Proof.
  intros Hrooms Hun. unfold assign, room_full. rewrite Hrooms. simpl. by rewrite Hun.
Qed.

(** The counter never goes down in a pass over preferred slots. *)
Lemma allot_prefs_mono course slots st allotted st' allotted' :
  allot_prefs rooms unavail course slots st allotted = Normal (st', allotted') →
  allotted ≤ allotted'.
Proof.
  revert st allotted. induction slots as [|slot slots IH]; intros st allotted; simpl.
  - intros [= <- <-]. lia.
  - destruct (assign rooms unavail course slot st) as [[ok st1]|e]; [|done]. simpl.
    destruct ok; [|apply IH]. case_bool_decide; [intros [= <- <-]; lia|].
    intros ?%IH. lia.
Qed.

(** The loop of line 83 breaks only after a placement that completes the
    course: a pass that placed nothing, or that leaves the course short,
    goes on with the next preferred slot. *)
Lemma allot_prefs_reach course tried rest st allotted st1 allotted1 :
  allot_prefs rooms unavail course tried st allotted = Normal (st1, allotted1) →
  allotted1 < lectures course ∨ allotted1 = allotted →
  allot_prefs rooms unavail course (tried ++ rest) st allotted
  = allot_prefs rooms unavail course rest st1 allotted1.
Proof.
  revert st allotted. induction tried as [|slot tried IH]; intros st allotted; simpl.
  - by intros [= <- <-].
  - destruct (assign rooms unavail course slot st) as [[ok st']|e]; [|done]. simpl.
    destruct ok; [|apply IH]. case_bool_decide.
    + intros [= <- <-] ?. lia.
    + intros Hrest Hreach. apply IH; [done|].
      apply allot_prefs_mono in Hrest. lia.
Qed.

(** An unfinished pass over preferred slots goes on with the next one. *)
Lemma allot_prefs_app course tried rest st allotted st1 allotted1 :
  allot_prefs rooms unavail course tried st allotted = Normal (st1, allotted1) →
  allotted1 < lectures course →
  allot_prefs rooms unavail course (tried ++ rest) st allotted
  = allot_prefs rooms unavail course rest st1 allotted1.
Proof.
  revert st allotted. induction tried as [|slot tried IH]; intros st allotted; simpl.
  - by intros [= <- <-].
  - destruct (assign rooms unavail course slot st) as [[ok st']|e]; [|done]. simpl.
    destruct ok; [|apply IH]. case_bool_decide; [|apply IH].
    intros [= <- <-] ?. lia.
Qed.

Lemma allocate_all_app before after st unassigned :
  allocate_all rooms unavail (before ++ after) st unassigned
  = '(st', unassigned') ← allocate_all rooms unavail before st unassigned;
    allocate_all rooms unavail after st' unassigned'.
Proof.
  revert st unassigned. induction before as [|course before IH]; intros st unassigned;
    simpl; [done|].
  destruct (allocate rooms unavail course st unassigned) as [[st1 un1]|e]; [|done].
  simpl. apply IH.
Qed.

Lemma allot_prefs_keys course slots st allotted st' allotted' :
  allot_prefs rooms unavail course slots st allotted = Normal (st', allotted') →
  keys (schedule st') = keys (schedule st).
Proof.
  intros Hall.
  eapply (allot_prefs_invariant rooms unavail
            (λ st0, keys (schedule st0) = keys (schedule st))) in Hall; [done| |done].
  intros c slot st0 ok st1 Hst0 Hassign%assign_keys. congruence.
Qed.

End missing_slot.

(** C10, as amended: when the pass over a course's preferred slots comes
    to a [day.period] token that is not a key of the grid, the attempt
    throws and the run returns the result of the [catch] clause, whatever
    was placed before, provided a room capacity is set or the
    unavailability map does not list that entry for the course's teacher;
    with no room capacity and the entry listed, the attempt is rejected
    without an exception.  The pass comes to an entry when the entries
    before it placed nothing or left the course short of its lectures: the
    loop breaks only after a placement, so the preferences of a course
    whose [lectures] is 0 or negative are attempted as well. *)
Theorem missing_preferred_slot_aborts_run courses days rooms unavail sched
    before course after st unassigned tried slot day period rest st1 allotted :
  init_schedule days = Some sched →
  ordered_courses courses unavail = before ++ course :: after →
  allocate_all rooms unavail before (mkAlloc sched (Num 0)) [] = Normal (st, unassigned) →
  prefs course = tried ++ slot :: rest →
  allot_prefs rooms unavail course tried st 0 = Normal (st1, allotted) →
  allotted < lectures course ∨ allotted = 0 →
  slot = slot_key day period →
  get slot sched = None →
  (truthy rooms = true ∨ teacher_unavailable unavail course slot = false →
   (∃ e, assign rooms unavail course slot st1 = Throw e)
   ∧ ∃ msg, scheduler courses days rooms unavail
            = Returns (mkResult [] (Num 0) [] (Some msg)))
  ∧ (truthy rooms = false ∧ teacher_unavailable unavail course slot = true →
     assign rooms unavail course slot st1 = Normal (false, st1)).
Proof.
  intros Hsched Hsorted Hbefore Hprefs Htried Hreach _ Habsent.
  assert (get slot (schedule st1) = None) as Habsent1.
  { apply get_None_keys. apply allot_prefs_keys in Htried.
    apply allocate_all_keys in Hbefore. simpl in Hbefore.
    rewrite Htried, Hbefore. by apply get_None_keys. }
  split; [|intros [? ?]; by apply assign_unavailable_before_lookup].
  intros Hchecks.
  destruct (assign_missing_slot_throws rooms unavail course slot st1 Habsent1 Hchecks)
    as [e He].
  split; [by exists e|]. eexists.
  apply (scheduler_catches courses days sched rooms unavail e Hsched).
  unfold run, assignCourses. rewrite Hsorted, allocate_all_app, Hbefore. simpl.
  unfold allocate, phase1. rewrite Hprefs.
  rewrite bool_decide_eq_true_2 by (rewrite length_app; simpl; lia).
  rewrite (allot_prefs_reach rooms unavail course tried (slot :: rest) st 0 st1 allotted)
    by done.
  simpl. by rewrite He.
Qed.

Lemma missing_preferred_slot_aborts_run_witness :
  ∃ msg, scheduler [analysis; mkCourse 1 "Seminar" "Hilbert" {["S"]} (-1) 1 ["9.9"] 0]
           (Num 501) None None
         = Returns (mkResult [] (Num 0) [] (Some msg)).
Proof.
  pose (late := mkCourse 1 "Seminar" "Hilbert" {["S"]} (-1) 1 ["9.9"] 0).
  pose (sched := add_periods 501 (1000 `div` 501)).
  pose (before := allocate_all None None [analysis] (mkAlloc sched (Num 0)) []).
  pose (st := the_value (mkAlloc sched (Num 0), []) before).
  apply (proj1 (missing_preferred_slot_aborts_run [analysis; late] (Num 501) None None
                  sched [analysis] late [] st.1 st.2 [] "9.9" 9 9 [] st.1 0
                  ltac:(reflexivity)
                  ltac:(vm_compute; reflexivity)
                  ltac:(rewrite <-surjective_pairing; apply completes_the_value;
                        vm_compute; reflexivity)
                  ltac:(reflexivity)
                  ltac:(reflexivity)
                  ltac:(right; reflexivity)
                  ltac:(reflexivity)
                  ltac:(apply (off_grid_slot_absent 501 sched 9 9);
                        [reflexivity | lia | lia | right; reflexivity]))).
  right. reflexivity.
Defined.

(** C10 as stated fails, in two ways.  On a one-day grid "9.9" is not a
    key.  In the first run it is the first slot attempted for the course,
    line 70 rejects it before line 71 reads it, and the run places the
    course in "1.1" and returns without an error.  In the second run the
    course is complete after "1.1", the loop of line 83 breaks before "9.9"
    and the run returns without an error. *)
Lemma missing_slot_rejected_without_exception :
  get "9.9" (add_periods 1 1000) = None
  ∧ (returned (scheduler [mkCourse 0 "Geometry" "Riemann" {["E"]} 1 1 ["9.9"] 0]
                 (Num 1) None (Some riemann_busy)) = true
     ∧ get "1.1" (r_schedule (the_result
           (scheduler [mkCourse 0 "Geometry" "Riemann" {["E"]} 1 1 ["9.9"] 0]
              (Num 1) None (Some riemann_busy))))
       = Some [mkCourse 0 "Geometry" "Riemann" {["E"]} 1 1 ["9.9"] 1]
     ∧ r_error (the_result
           (scheduler [mkCourse 0 "Geometry" "Riemann" {["E"]} 1 1 ["9.9"] 0]
              (Num 1) None (Some riemann_busy)))
       = None)
  ∧ (returned (scheduler [mkCourse 0 "Geometry" "Riemann" {["E"]} 1 1 ["1.1"; "9.9"] 0]
                 (Num 1) None None) = true
     ∧ get "1.1" (r_schedule (the_result
           (scheduler [mkCourse 0 "Geometry" "Riemann" {["E"]} 1 1 ["1.1"; "9.9"] 0]
              (Num 1) None None)))
       = Some [mkCourse 0 "Geometry" "Riemann" {["E"]} 1 1 ["1.1"; "9.9"] 0]
     ∧ r_error (the_result
           (scheduler [mkCourse 0 "Geometry" "Riemann" {["E"]} 1 1 ["1.1"; "9.9"] 0]
              (Num 1) None None))
       = None).
Proof.
  split; [|vm_compute; repeat split; reflexivity].
  apply (off_grid_slot_absent 1 (add_periods 1 1000) 9 9);
    [reflexivity | lia | lia | left; lia].
Qed.

End errors.

(** ** Conflict scores *)

Section scores.

Lemma foldl_conflict_sum weight (i : nat) course (l : list (nat * Course)) sum :
  foldl (λ sum '(j, other),
           if negb (bool_decide (j = i)) && conflict course other
           then sum + weight else sum) sum l
  = sum + weight * Z.of_nat (length (filter (λ jo, jo.1 ≠ i ∧ conflict course jo.2 = true) l)).
Proof.
  revert sum. induction l as [|[j other] l IH]; intros sum; simpl; [lia|].
  rewrite IH, filter_cons. simpl.
  destruct (decide (j = i)) as [->|Hne].
  - rewrite bool_decide_eq_true_2 by done. simpl.
    rewrite decide_False by (by intros [? _]). done.
  - rewrite bool_decide_eq_false_2 by done. simpl.
    destruct (conflict course other) eqn:Hc.
    + rewrite decide_True by done. simpl. lia.
    + rewrite decide_False by (by intros [_ ?]). done.
Qed.

(** The entries at the other positions that conflict are the conflicting
    entries but the one at position [i]. *)
Lemma conflicting_elsewhere (i : nat) course (l : list Course) :
  Z.of_nat (length (filter (λ jo : nat * Course, jo.1 ≠ i ∧ conflict course jo.2 = true)
                      (imap pair l)))
  = conflicting l course
    - match l !! i with
      | Some other => if conflict course other then 1 else 0
      | None => 0
      end.
Proof.
  unfold conflicting. induction l as [|x l IH] using rev_ind; [done|].
  rewrite imap_app, !filter_app, !length_app, !Nat2Z.inj_add, IH. simpl.
  rewrite Nat.add_0_r, !filter_cons, !filter_nil. simpl.
  destruct (decide (i < length l)%nat) as [Hlt|Hge].
  - rewrite lookup_app_l by done.
    destruct (conflict course x) eqn:Hc.
    + rewrite !decide_True by first [split; [lia|done] | done]. simpl. lia.
    + rewrite !decide_False by first [by intros [_ ?] | done]. simpl. lia.
  - rewrite (lookup_ge_None_2 l i) by lia.
    destruct (decide (i = length l)) as [->|Hne].
    + rewrite lookup_app_r, Nat.sub_diag by lia. simpl.
      rewrite decide_False by (intros [? _]; lia).
      destruct (conflict course x) eqn:Hc.
      * rewrite decide_True by done. simpl. lia.
      * rewrite decide_False by done. simpl. lia.
    + rewrite (lookup_ge_None_2 (l ++ [x]) i) by (rewrite length_app; simpl; lia).
      destruct (conflict course x) eqn:Hc.
      * rewrite !decide_True by first [split; [lia|done] | done]. simpl. lia.
      * rewrite !decide_False by first [by intros [_ ?] | done]. simpl. lia.
Qed.

Lemma conflict_sum_at weight courses (i : nat) course :
  courses !! i = Some course →
  conflict_sum weight courses i course = weight * (conflicting courses course - 1).
Proof.
  intros Hi. unfold conflict_sum.
  rewrite foldl_conflict_sum, conflicting_elsewhere, Hi, conflict_refl. lia.
Qed.

Lemma calculateConflicts_score courses unavail :
  calculateConflicts courses unavail
  = (λ course, with_conflicts (score courses unavail course) course) <$> courses.
Proof.
  apply list_eq. intros i. rewrite list_lookup_fmap.
  unfold calculateConflicts, score.
  destruct unavail as [u|]; rewrite list_lookup_imap;
    destruct (courses !! i) as [course|] eqn:Hi; simpl; try done;
    rewrite (conflict_sum_at _ _ _ _ Hi); do 2 f_equal; lia.
Qed.

Lemma conflicting_Permutation l l' course :
  l ≡ₚ l' → conflicting l course = conflicting l' course.
Proof. intros Hperm. unfold conflicting. by rewrite Hperm. Qed.

Lemma calculateConflicts_Permutation l l' unavail :
  l ≡ₚ l' → calculateConflicts l unavail ≡ₚ calculateConflicts l' unavail.
Proof.
  intros Hperm. rewrite !calculateConflicts_score.
  rewrite (list_fmap_ext _ (λ course, with_conflicts (score l' unavail course) course) l).
  - by rewrite Hperm.
  - intros i course _. unfold score.
    by rewrite (conflicting_Permutation l l' course Hperm).
Qed.

End scores.

(** ** Sessions: where a course sits *)

Section sessions.

Lemma get_Some_elem_of {V} k (v : V) (o : object V) : get k o = Some v → (k, v) ∈ o.
Proof.
  induction o as [|[k' v'] o IH]; simpl; [done|].
  case_decide; [intros [= ->]; subst; left | intros ?; right; auto].
Qed.

Lemma elem_of_get_Some {V} k (v : V) (o : object V) :
  NoDup (keys o) → (k, v) ∈ o → get k o = Some v.
Proof.
  unfold keys. induction o as [|[k' v'] o IH]; simpl; [by intros _ ?%elem_of_nil|].
  intros [Hfresh Hnd]%NoDup_cons [[= -> ->]|Hin]%elem_of_cons.
  - by rewrite decide_True.
  - rewrite decide_False; [auto|]. intros ->. apply Hfresh.
    by apply (list_elem_of_fmap_2 fst) in Hin.
Qed.

Lemma get_cons {V} k k' (v' : V) (o : object V) :
  get k ((k', v') :: o) = if decide (k' = k) then Some v' else get k o.
Proof. done. Qed.

Lemma set_cons {V} k (v : V) k' v' (o : object V) :
  set k v ((k', v') :: o)
  = if decide (k' = k) then (k', v) :: o else (k', v') :: set k v o.
Proof. done. Qed.

Lemma sessions_sublist course sched : sessions course sched `sublist_of` keys sched.
Proof. unfold sessions, keys. apply fmap_sublist, sublist_filter. Qed.

Lemma elem_of_sessions course sched slot occ :
  get slot sched = Some occ → course ∈ occ → slot ∈ sessions course sched.
Proof.
  intros Hget%get_Some_elem_of Hin. unfold sessions.
  apply (list_elem_of_fmap_2' fst _ (slot, occ)); [|done].
  by apply list_elem_of_filter.
Qed.

Lemma sessions_elem_of course sched slot :
  slot ∈ sessions course sched → ∃ occ, (slot, occ) ∈ sched ∧ course ∈ occ.
Proof.
  unfold sessions. intros ([k occ] & -> & [Hc Hin]%list_elem_of_filter)%list_elem_of_fmap.
  by exists occ.
Qed.

(** Appending [course] to a slot touches the sessions of no other course... *)
Lemma sessions_set_other course other slot occ sched :
  other ≠ course → get slot sched = Some occ →
  sessions other (set slot (occ ++ [course]) sched) = sessions other sched.
Proof.
  intros Hne. unfold sessions.
  induction sched as [|[k v] sched IH]; [done|].
  rewrite get_cons, set_cons. case_decide as Hk.
  - intros [= ->]. rewrite !filter_cons. simpl.
    destruct (decide (other ∈ occ)) as [Hin|Hout].
    + by rewrite decide_True by (apply elem_of_app; by left).
    + rewrite decide_False; [done|].
      intros [?|?%list_elem_of_singleton]%elem_of_app; done.
  - intros Hget. rewrite !filter_cons. simpl. specialize (IH Hget).
    destruct (decide (other ∈ v)); rewrite ?fmap_cons, IH; done.
Qed.

(** ... and adds one session to [course]. *)
Lemma sessions_set_new course slot occ sched :
  get slot sched = Some occ → course ∉ occ →
  length (sessions course (set slot (occ ++ [course]) sched))
  = S (length (sessions course sched)).
Proof.
  intros Hget Hout. unfold sessions. revert Hget.
  induction sched as [|[k v] sched IH]; [done|].
  rewrite get_cons, set_cons. case_decide as Hk.
  - intros [= ->]. rewrite !filter_cons. simpl.
    rewrite decide_True by (apply elem_of_app; right; by apply list_elem_of_singleton).
    by rewrite decide_False by done.
  - intros Hget. rewrite !filter_cons. simpl. specialize (IH Hget).
    destruct (decide (course ∈ v)); rewrite ?fmap_cons; simpl; by rewrite IH.
Qed.

Context (rooms : Rooms) (unavail : Unavail).

Lemma assign_sessions course slot st ok st' :
  assign rooms unavail course slot st = Normal (ok, st') →
  Z.of_nat (length (sessions course (schedule st')))
  = Z.of_nat (length (sessions course (schedule st))) + (if ok then 1 else 0)
  ∧ ∀ other, other ≠ course →
      sessions other (schedule st') = sessions other (schedule st).
Proof.
  intros [[-> ->]|[-> (occ & Hget & _ & _ & Hfree & ->)]]%assign_Normal.
  - split; [lia|done].
  - simpl. split.
    + rewrite sessions_set_new; [lia|done|].
      intros Hin. apply Hfree in Hin. by rewrite conflict_refl in Hin.
    + intros other Hne. by apply sessions_set_other.
Qed.

(** One pass of either loop: the sessions gained are the increase of
    [allotted], which stops at [lectures] (or after one placement when
    [lectures] is already reached). *)
Lemma allot_prefs_sessions course slots st allotted st' allotted' :
  allot_prefs rooms unavail course slots st allotted = Normal (st', allotted') →
  Z.of_nat (length (sessions course (schedule st')))
  = Z.of_nat (length (sessions course (schedule st))) + (allotted' - allotted)
  ∧ allotted ≤ allotted' ≤ Z.max (allotted + 1) (lectures course)
  ∧ ∀ other, other ≠ course →
      sessions other (schedule st') = sessions other (schedule st).
Proof.
  revert st allotted. induction slots as [|slot slots IH]; intros st allotted; simpl.
  - intros [= <- <-]. split_and!; [lia..|done].
  - destruct (assign rooms unavail course slot st) as [[ok st1]|e] eqn:Hassign; [|done].
    simpl. apply assign_sessions in Hassign as [Hlen Hframe].
    destruct ok.
    + case_bool_decide.
      * intros [= <- <-]. split_and!; [lia..|done].
      * intros (Hlen' & Hbound & Hframe')%IH. split_and!; [lia..|].
        intros other Hne. rewrite Hframe', Hframe; done.
    + intros (Hlen' & Hbound & Hframe')%IH. split_and!; [lia..|].
      intros other Hne. rewrite Hframe', Hframe; done.
Qed.

Lemma allot_others_sessions course slots st allotted st' allotted' :
  allot_others rooms unavail course slots st allotted = Normal (st', allotted') →
  Z.of_nat (length (sessions course (schedule st')))
  = Z.of_nat (length (sessions course (schedule st))) + (allotted' - allotted)
  ∧ allotted ≤ allotted' ≤ Z.max (allotted + 1) (lectures course)
  ∧ ∀ other, other ≠ course →
      sessions other (schedule st') = sessions other (schedule st).
Proof.
  revert st allotted. induction slots as [|slot slots IH]; intros st allotted; simpl.
  - intros [= <- <-]. split_and!; [lia..|done].
  - destruct (negb (bool_decide (slot ∈ prefs course))); [|apply IH].
    destruct (assign rooms unavail course slot st) as [[ok st1]|e] eqn:Hassign; [|done].
    simpl. apply assign_sessions in Hassign as [Hlen Hframe].
    destruct ok.
    + case_bool_decide.
      * intros [= <- <-]. split_and!; [lia..|done].
      * intros (Hlen' & Hbound & Hframe')%IH. split_and!; [lia..|].
        intros other Hne. rewrite Hframe', Hframe; done.
    + intros (Hlen' & Hbound & Hframe')%IH. split_and!; [lia..|].
      intros other Hne. rewrite Hframe', Hframe; done.
Qed.

(** The body of the loop of line 79 for one course. *)
Lemma allocate_sessions course st unassigned st' unassigned' :
  allocate rooms unavail course st unassigned = Normal (st', unassigned') →
  ∃ allotted,
    Z.of_nat (length (sessions course (schedule st')))
    = Z.of_nat (length (sessions course (schedule st))) + allotted
    ∧ 0 ≤ allotted ≤ Z.max 1 (lectures course)
    ∧ (prefs course = [] → allotted ≤ Z.max 0 (lectures course))
    ∧ unassigned' = (if bool_decide (allotted < lectures course)
                     then unassigned ++ [course] else unassigned)
    ∧ ∀ other, other ≠ course →
        sessions other (schedule st') = sessions other (schedule st).
Proof.
  unfold allocate.
  destruct (phase1 rooms unavail course st) as [[st1 a1]|e] eqn:H1; [|done]. simpl.
  destruct (phase2 rooms unavail course st1 a1) as [[st2 a2]|e] eqn:H2; [|done]. simpl.
  assert (Z.of_nat (length (sessions course (schedule st1)))
          = Z.of_nat (length (sessions course (schedule st))) + a1
          ∧ 0 ≤ a1 ≤ Z.max 1 (lectures course)
          ∧ (prefs course = [] → a1 = 0)
          ∧ ∀ other, other ≠ course →
              sessions other (schedule st1) = sessions other (schedule st))
    as (Hlen1 & Hb1 & Hnil1 & Hframe1).
  { unfold phase1 in H1. case_bool_decide as Hprefs.
    - apply allot_prefs_sessions in H1 as (? & ? & ?). split_and!; [lia..| |done].
      intros Hnil. rewrite Hnil in Hprefs. simpl in Hprefs. lia.
    - injection H1 as <- <-. split_and!; [lia..|done|done]. }
  assert (Z.of_nat (length (sessions course (schedule st2)))
          = Z.of_nat (length (sessions course (schedule st1))) + (a2 - a1)
          ∧ a1 ≤ a2 ∧ (a1 < lectures course → a2 ≤ lectures course)
          ∧ (¬ a1 < lectures course → a2 = a1)
          ∧ ∀ other, other ≠ course →
              sessions other (schedule st2) = sessions other (schedule st1))
    as (Hlen2 & Hle2 & Hb2 & Hskip2 & Hframe2).
  { unfold phase2 in H2. case_bool_decide as Hshort.
    - apply allot_others_sessions in H2 as (? & ? & ?). split_and!; [lia..|done].
    - injection H2 as <- <-. split_and!; [lia..|done]. }
  intros Hun.
  assert (st' = st2 ∧ unassigned' = (if bool_decide (a2 < lectures course)
                                     then unassigned ++ [course] else unassigned))
    as [-> ->] by (by case_bool_decide; injection Hun as <- <-).
  exists a2. split_and!.
  - lia.
  - lia.
  - destruct (decide (a1 < lectures course)); [specialize (Hb2 ltac:(done))|
      specialize (Hskip2 ltac:(done))]; lia.
  - intros Hnil. specialize (Hnil1 Hnil).
    destruct (decide (a1 < lectures course)); [specialize (Hb2 ltac:(done))|
      specialize (Hskip2 ltac:(done))]; lia.
  - done.
  - intros other Hne. rewrite Hframe2, Hframe1; done.
Qed.

(** Courses that are not in the list gain and lose nothing. *)
Lemma allocate_all_frame courses st unassigned st' unassigned' other :
  allocate_all rooms unavail courses st unassigned = Normal (st', unassigned') →
  other ∉ courses →
  sessions other (schedule st') = sessions other (schedule st).
Proof.
  revert st unassigned. induction courses as [|course courses IH];
    intros st unassigned; simpl.
  - by intros [= <- <-].
  - destruct (allocate rooms unavail course st unassigned) as [[st1 un1]|e] eqn:Hone;
      [|done].
    simpl. intros Hrest [Hne Hout]%not_elem_of_cons.
    rewrite (IH _ _ Hrest Hout).
    apply allocate_sessions in Hone as (_ & _ & _ & _ & _ & Hframe). by apply Hframe.
Qed.

Lemma allocate_all_unassigned courses st unassigned st' unassigned' :
  allocate_all rooms unavail courses st unassigned = Normal (st', unassigned') →
  ∃ extra, unassigned' = unassigned ++ extra ∧ extra `sublist_of` courses.
Proof.
  revert st unassigned. induction courses as [|course courses IH];
    intros st unassigned; simpl.
  - intros [= <- <-]. exists []. by rewrite app_nil_r.
  - destruct (allocate rooms unavail course st unassigned) as [[st1 un1]|e] eqn:Hone;
      [|done].
    simpl. intros (extra & -> & Hsub)%IH.
    apply allocate_sessions in Hone as (a & _ & _ & _ & -> & _).
    case_bool_decide.
    + exists (course :: extra). rewrite <-app_assoc. split; [done|].
      by apply sublist_skip.
    + exists extra. split; [done|]. by apply sublist_cons.
Qed.

Lemma allocate_all_sessions courses st unassigned st' unassigned' course :
  allocate_all rooms unavail courses st unassigned = Normal (st', unassigned') →
  NoDup courses → course ∈ courses →
  ∃ allotted,
    Z.of_nat (length (sessions course (schedule st')))
    = Z.of_nat (length (sessions course (schedule st))) + allotted
    ∧ 0 ≤ allotted ≤ Z.max 1 (lectures course)
    ∧ (prefs course = [] → allotted ≤ Z.max 0 (lectures course))
    ∧ (course ∈ unassigned' ↔ course ∈ unassigned ∨ allotted < lectures course).
Proof.
  revert st unassigned. induction courses as [|c0 courses IH];
    intros st unassigned; simpl; [by intros _ _ ?%elem_of_nil|].
  destruct (allocate rooms unavail c0 st unassigned) as [[st1 un1]|e] eqn:Hone; [|done].
  simpl. intros Hrest [Hfresh Hnd]%NoDup_cons Hin.
  apply allocate_sessions in Hone as (a & Hlen & Hb & Hnil & Hun & Hframe).
  apply elem_of_cons in Hin as [->|Hin].
  - exists a. rewrite (allocate_all_frame _ _ _ _ _ _ Hrest Hfresh).
    split_and!; [first [done | lia]..|].
    apply allocate_all_unassigned in Hrest as (extra & -> & Hsub).
    rewrite elem_of_app, Hun.
    assert (c0 ∉ extra) as Hextra.
    { intros ?. apply Hfresh. by eapply elem_of_sublist. }
    case_bool_decide; rewrite ?elem_of_app, ?list_elem_of_singleton; tauto.
  - assert (course ≠ c0) as Hne by (by intros ->).
    destruct (IH _ _ Hrest Hnd Hin) as (a' & Hlen' & Hb' & Hnil' & Hun').
    exists a'. rewrite Hlen', (Hframe _ Hne). split_and!; [first [done | lia]..|].
    rewrite Hun', Hun. case_bool_decide; [|done].
    rewrite elem_of_app, list_elem_of_singleton. tauto.
Qed.

End sessions.

(** ** What a completed run leaves *)

Section completed_runs.

Lemma run_Normal courses sched rooms unavail r :
  run courses sched rooms unavail = Normal r →
  ∃ st unassigned,
    allocate_all rooms unavail (ordered_courses courses unavail)
      (mkAlloc sched (Num 0)) [] = Normal (st, unassigned)
    ∧ r_schedule r = schedule st ∧ r_periods r = periods st
    ∧ r_unassigned r = unassigned
    ∧ r_error r = (if bool_decide (0 < Z.of_nat (length unassigned))
                   then Some "Unable to schedule all classes." else None).
Proof.
  unfold run, assignCourses.
  destruct (allocate_all _ _ _ _ _) as [[st unassigned]|e]; [|done].
  simpl. intros [= <-]. by exists st, unassigned.
Qed.

(** A returned result without the message of the [catch] clause comes from
    a [try] block that ran to its end. *)
Lemma scheduler_completed courses days rooms unavail r :
  scheduler courses days rooms unavail = Returns r →
  r_error r = None ∨ r_error r = Some "Unable to schedule all classes." →
  ∃ sched, init_schedule days = Some sched
           ∧ run courses sched rooms unavail = Normal r.
Proof.
  unfold scheduler. destruct (init_schedule days) as [sched|]; [|done].
  destruct (run courses sched rooms unavail) as [r'|e] eqn:Hrun.
  - intros [= ->] _. by exists sched.
  - intros [= <-] [Herr|Herr]; simpl in Herr; discriminate.
Qed.

Lemma sessions_init days sched course :
  init_schedule days = Some sched → sessions course sched = [].
Proof.
  destruct days as [|d]; simpl; [by intros [= <-]|].
  case_bool_decide; [done|]. intros [= <-]. rewrite add_periods_canonical.
  unfold sessions. induction (canonical_slots d (1000 `div` d)) as [|k ks IH]; [done|].
  rewrite fmap_cons, filter_cons, decide_False by (simpl; apply not_elem_of_nil).
  done.
Qed.

Lemma init_schedule_NoDup days sched :
  init_schedule days = Some sched → NoDup (keys sched).
Proof.
  destruct days as [|d]; simpl; [intros [= <-]; constructor|].
  case_bool_decide; [done|]. intros [= <-].
  rewrite keys_add_periods. apply NoDup_canonical_slots.
Qed.

Lemma ordered_courses_NoDup courses unavail :
  NoDup (id <$> courses) → NoDup (ordered_courses courses unavail).
Proof.
  intros Hnd. apply (NoDup_fmap_1 id). unfold ordered_courses.
  rewrite sort_Permutation, calculateConflicts_id. done.
Qed.

(** The sessions of a course after a completed run. *)
Lemma run_sessions courses days sched rooms unavail r course :
  init_schedule days = Some sched →
  run courses sched rooms unavail = Normal r →
  NoDup (id <$> courses) →
  course ∈ ordered_courses courses unavail →
  NoDup (sessions course (r_schedule r))
  ∧ 0 ≤ Z.of_nat (length (sessions course (r_schedule r))) ≤ Z.max 1 (lectures course)
  ∧ (prefs course = [] →
     Z.of_nat (length (sessions course (r_schedule r))) ≤ Z.max 0 (lectures course))
  ∧ (course ∈ r_unassigned r ↔
     Z.of_nat (length (sessions course (r_schedule r))) < lectures course).
Proof.
  intros Hsched (st & un & Hall & Hs & _ & Hun & _)%run_Normal Hnd Hin.
  rewrite Hs, Hun. split.
  - eapply sublist_NoDup; [|apply sessions_sublist].
    rewrite (allocate_all_keys _ _ _ _ _ _ _ Hall). simpl.
    by eapply init_schedule_NoDup.
  - destruct (allocate_all_sessions _ _ _ _ _ _ _ course Hall) as (a & Hlen & Hb & Hnil & Hiff);
      [by apply ordered_courses_NoDup|done|].
    simpl in Hlen. rewrite (sessions_init _ _ _ Hsched) in Hlen. simpl in Hlen.
    rewrite Hlen, Hiff. split_and!; [lia..| |].
    + intros ?. specialize (Hnil ltac:(done)). lia.
    + split; [intros [[]%elem_of_nil|?]; done | by right].
Qed.

End completed_runs.

(** ** The engine: scores, placements and results *)

Section engine_properties.

(** X1: the score written into the course at position [i] is the number of
    other entries of the array that conflict with it, doubled and increased
    by the length of the teacher's unavailability list when an
    unavailability map is given; the course is among the conflicting
    entries, so the count of others is between 0 and the length less 1.
    The teacher's name is one that line 54 looks up among the own entries
    of the map: with no entry of its own, the name of a member inherited
    from [Object.prototype] would add that member's [length]. *)
Theorem conflict_score_counts courses unavail (i : nat) course :
  courses !! i = Some course →
  reads_own unavail (teacher course) →
  calculateConflicts courses unavail !! i
  = Some (with_conflicts (score courses unavail course) course)
  ∧ 1 ≤ conflicting courses course ≤ Z.of_nat (length courses).
Proof.
  intros Hi _. split.
  - by rewrite calculateConflicts_score, list_lookup_fmap, Hi.
  - unfold conflicting. split; [|apply inj_le, length_filter].
    assert (course ∈ filter (λ other, conflict course other = true) courses) as Hin.
    { apply list_elem_of_filter. split; [apply conflict_refl|].
      by eapply list_elem_of_lookup_2. }
    destruct (filter _ courses); [by apply elem_of_nil in Hin|simpl; lia].
Qed.

Lemma conflict_score_counts_witness :
  calculateConflicts [algebra; topology; logic] (Some godel_busy) !! 2%nat
  = Some (with_conflicts (score [algebra; topology; logic] (Some godel_busy) logic) logic).
Proof.
  apply (conflict_score_counts [algebra; topology; logic] (Some godel_busy) 2 logic).
  - reflexivity.
  - left. exists ["1.1"; "2.1"]. vm_compute. reflexivity.
Defined.

(** X2: the scores depend on the content of the course array, not on its
    order; with unique ids the allocation order, and with it the whole
    result, is the same for every arrangement of the input. *)
Theorem result_ignores_input_order l l' days rooms unavail :
  l ≡ₚ l' → NoDup (id <$> l) →
  calculateConflicts l unavail ≡ₚ calculateConflicts l' unavail
  ∧ ordered_courses l unavail = ordered_courses l' unavail
  ∧ scheduler l days rooms unavail = scheduler l' days rooms unavail.
Proof.
  intros Hperm Hnd.
  pose proof (calculateConflicts_Permutation l l' unavail Hperm) as Hscored.
  assert (ordered_courses l unavail = ordered_courses l' unavail) as Hsame.
  { unfold ordered_courses.
    apply (StronglySorted_unique_strong before_or_tied);
      [|apply sort_sorted..|by rewrite !sort_Permutation].
    intros a b Ha Hb Hab Hba.
    rewrite sort_Permutation in Ha. rewrite sort_Permutation, <-Hscored in Hb.
    apply (same_id_same_course (calculateConflicts l unavail)); [|done..|].
    - by rewrite calculateConflicts_id.
    - apply compare_courses_zero. unfold before_or_tied in *.
      assert (compare_courses b a = - compare_courses a b) as Hanti
        by (unfold compare_courses; repeat case_bool_decide; lia).
      lia. }
  split_and!; [done..|].
  unfold scheduler, run. by rewrite Hsame.
Qed.

Lemma result_ignores_input_order_witness :
  ordered_courses [algebra; logic; topology] None
  = ordered_courses [topology; algebra; logic] None.
Proof.
  apply (result_ignores_input_order [algebra; logic; topology]
           [topology; algebra; logic] (Num 5) None None).
  - apply (Permutation_app_comm [algebra; logic] [topology]).
  - apply (bool_decide_unpack _). vm_compute. exact I.
Defined.

Context (rooms : Rooms) (unavail : Unavail).

Lemma assign_extends course slot st ok st' :
  assign rooms unavail course slot st = Normal (ok, st') →
  ∀ k occ, get k (schedule st) = Some occ →
           ∃ more, get k (schedule st') = Some (occ ++ more).
Proof.
  intros [[_ ->]|[_ (occ0 & Hget & _ & _ & _ & ->)]]%assign_Normal k occ Hk.
  - exists []. by rewrite app_nil_r.
  - simpl. destruct (decide (slot = k)) as [<-|Hne].
    + rewrite get_set_eq. exists [course]. congruence.
    + rewrite get_set_ne by done. exists []. by rewrite app_nil_r.
Qed.

(** X3: a call of [assign] that returns false changes nothing; one that
    returns true appends the course to the occupancy list of that slot,
    where it was not yet, and raises the period counter; either way the
    keys and every other slot stay as they were. *)
Theorem assign_appends_or_rejects course slot st ok st' :
  assign rooms unavail course slot st = Normal (ok, st') →
  keys (schedule st') = keys (schedule st)
  ∧ (∀ k, k ≠ slot → get k (schedule st') = get k (schedule st))
  ∧ (ok = false → st' = st)
  ∧ (ok = true →
     ∃ occ, get slot (schedule st) = Some occ ∧ (course ∉ occ)
            ∧ get slot (schedule st') = Some (occ ++ [course])
            ∧ periods st' = Math_max (periods st) (parseInt (split "." slot !! 1%nat))).
Proof.
  intros Hassign. split; [by eapply assign_keys|].
  apply assign_Normal in Hassign as [[-> ->]|[-> (occ & Hget & _ & _ & Hfree & ->)]].
  - split_and!; done.
  - simpl. split_and!; [|done|].
    + intros k Hk. by rewrite get_set_ne.
    + intros _. exists occ. rewrite get_set_eq. split_and!; [done| |done..].
      intros Hin%Hfree. by rewrite conflict_refl in Hin.
Qed.

(** X4: [assignCourses] never takes a course out of a slot: from any state,
    every occupancy list of the final state starts with the list it was,
    the keys are unchanged, and the unassigned list is only extended. *)
Theorem placements_are_never_undone courses st unassigned st' unassigned' :
  allocate_all rooms unavail courses st unassigned = Normal (st', unassigned') →
  (∀ k occ, get k (schedule st) = Some occ →
            ∃ more, get k (schedule st') = Some (occ ++ more))
  ∧ keys (schedule st') = keys (schedule st)
  ∧ ∃ extra, unassigned' = unassigned ++ extra.
Proof.
  intros Hall. split_and!.
  - eapply (allocate_all_invariant rooms unavail
              (λ st0, ∀ k occ, get k (schedule st) = Some occ →
                               ∃ more, get k (schedule st0) = Some (occ ++ more)));
      [| |done].
    + intros course slot st0 ok st1 Hst0 Hassign k occ Hk.
      destruct (Hst0 k occ Hk) as [more Hmore].
      destruct (assign_extends _ _ _ _ _ Hassign _ _ Hmore) as [more' Hmore'].
      exists (more ++ more'). by rewrite app_assoc.
    + intros k occ Hk. exists []. by rewrite app_nil_r.
  - by eapply allocate_all_keys.
  - apply allocate_all_unassigned in Hall as (extra & -> & _). by exists extra.
Qed.

End engine_properties.

Lemma assign_appends_or_rejects_witness :
  keys (schedule (the_value (false, one_slot) (assign None None logic "1.1" one_slot)).2)
  = keys (schedule one_slot).
Proof.
  apply (assign_appends_or_rejects None None logic "1.1" one_slot
           (the_value (false, one_slot) (assign None None logic "1.1" one_slot)).1
           (the_value (false, one_slot) (assign None None logic "1.1" one_slot)).2).
  rewrite <-surjective_pairing. apply completes_the_value. vm_compute. reflexivity.
Defined.

Lemma placements_are_never_undone_witness :
  ∃ more,
    get "1.1" (schedule (the_value (one_slot, [])
                           (allocate_all None None [logic] one_slot [])).1)
    = Some ([algebra] ++ more).
Proof.
  apply (proj1 (placements_are_never_undone None None [logic] one_slot []
                  (the_value (one_slot, []) (allocate_all None None [logic] one_slot [])).1
                  (the_value (one_slot, []) (allocate_all None None [logic] one_slot [])).2
                  ltac:(rewrite <-surjective_pairing; apply completes_the_value;
                        vm_compute; reflexivity))).
  reflexivity.
Defined.

(** ** The result of a run *)

Section results.

(** X5: after a run that was not aborted, a course of the run sits in
    distinct slots, in no more than [lectures] of them when [lectures] is at
    least 1, and it is on the unassigned list exactly when it sits in fewer
    slots than [lectures]. *)
Theorem unassigned_exactly_when_short courses days rooms unavail r course :
  scheduler courses days rooms unavail = Returns r →
  r_error r = None ∨ r_error r = Some "Unable to schedule all classes." →
  NoDup (id <$> courses) →
  course ∈ ordered_courses courses unavail →
  NoDup (sessions course (r_schedule r))
  ∧ (1 ≤ lectures course →
     Z.of_nat (length (sessions course (r_schedule r))) ≤ lectures course)
  ∧ (course ∈ r_unassigned r ↔
     Z.of_nat (length (sessions course (r_schedule r))) < lectures course).
Proof.
  intros Hrun Herr Hnd Hin.
  destruct (scheduler_completed _ _ _ _ _ Hrun Herr) as (sched & Hsched & Hbody).
  destruct (run_sessions _ _ _ _ _ _ _ Hsched Hbody Hnd Hin) as (? & ? & ? & ?).
  split_and!; [done| |done]. lia.
Qed.

Lemma unassigned_exactly_when_short_witness :
  NoDup (sessions algebra
           (r_schedule (the_result (scheduler [algebra; logic] (Num 5) (Some 1) None)))).
Proof.
  apply (unassigned_exactly_when_short [algebra; logic] (Num 5) (Some 1) None
           (the_result (scheduler [algebra; logic] (Num 5) (Some 1) None)) algebra).
  - apply returned_the_result. vm_compute. reflexivity.
  - left. vm_compute. reflexivity.
  - apply (bool_decide_unpack _). vm_compute. exact I.
  - apply (bool_decide_unpack _). vm_compute. exact I.
Defined.

(** X6: when a run returns without an error, the unassigned list is empty
    and every course that requires at least one session sits in exactly
    [lectures] slots. *)
Theorem no_error_means_complete courses days rooms unavail r :
  scheduler courses days rooms unavail = Returns r →
  r_error r = None →
  NoDup (id <$> courses) →
  r_unassigned r = []
  ∧ ∀ course, course ∈ ordered_courses courses unavail → 1 ≤ lectures course →
      Z.of_nat (length (sessions course (r_schedule r))) = lectures course.
Proof.
  intros Hrun Herr Hnd.
  destruct (scheduler_completed _ _ _ _ _ Hrun (or_introl Herr)) as (sched & Hsched & Hbody).
  assert (r_unassigned r = []) as Hnone.
  { apply run_Normal in Hbody as (st & un & _ & _ & _ & -> & Herr').
    rewrite Herr in Herr'. case_bool_decide; [done|].
    destruct un; [done|simpl in *; lia]. }
  split; [done|]. intros course Hin Hlect.
  destruct (run_sessions _ _ _ _ _ _ _ Hsched Hbody Hnd Hin) as (_ & Hb & _ & Hiff).
  rewrite Hnone in Hiff.
  assert (¬ Z.of_nat (length (sessions course (r_schedule r))) < lectures course)
    by (intros ?%Hiff; by apply elem_of_nil in H).
  lia.
Qed.

Lemma no_error_means_complete_witness :
  r_unassigned (the_result (scheduler [algebra; logic] (Num 5) (Some 1) None)) = [].
Proof.
  apply (no_error_means_complete [algebra; logic] (Num 5) (Some 1) None
           (the_result (scheduler [algebra; logic] (Num 5) (Some 1) None))).
  - apply returned_the_result. vm_compute. reflexivity.
  - vm_compute. reflexivity.
  - apply (bool_decide_unpack _). vm_compute. exact I.
Defined.

(** X7: a course whose [lectures] is 0 or negative is never reported as
    unassigned; it is placed at most once, and not at all when it has no
    preferred slot. *)
Theorem nonpositive_lectures_never_unassigned courses days rooms unavail r course :
  scheduler courses days rooms unavail = Returns r →
  r_error r = None ∨ r_error r = Some "Unable to schedule all classes." →
  NoDup (id <$> courses) →
  course ∈ ordered_courses courses unavail →
  lectures course ≤ 0 →
  (course ∉ r_unassigned r)
  ∧ ((length (sessions course (r_schedule r)) ≤ 1)%nat)
  ∧ (prefs course = [] → sessions course (r_schedule r) = []).
Proof.
  intros Hrun Herr Hnd Hin Hlect.
  destruct (scheduler_completed _ _ _ _ _ Hrun Herr) as (sched & Hsched & Hbody).
  destruct (run_sessions _ _ _ _ _ _ _ Hsched Hbody Hnd Hin) as (_ & Hb & Hnil & Hiff).
  split_and!.
  - intros ?%Hiff. lia.
  - lia.
  - intros Hprefs. specialize (Hnil Hprefs).
    destruct (sessions course (r_schedule r)); [done|simpl in *; lia].
Qed.

Lemma nonpositive_lectures_never_unassigned_witness :
  seminar ∉ r_unassigned (the_result (scheduler [seminar] (Num 5) None None)).
Proof.
  apply (nonpositive_lectures_never_unassigned [seminar] (Num 5) None None
           (the_result (scheduler [seminar] (Num 5) None None)) seminar).
  - apply returned_the_result. vm_compute. reflexivity.
  - left. vm_compute. reflexivity.
  - apply (bool_decide_unpack _). vm_compute. exact I.
  - apply (bool_decide_unpack _). vm_compute. exact I.
  - vm_compute. discriminate.
Defined.

(** X8: every course found in a slot of a returned schedule is a course of
    the input array, with its score written into [conflicts]. *)
Theorem placed_courses_come_from_input courses days rooms unavail r slot occ course :
  scheduler courses days rooms unavail = Returns r →
  get slot (r_schedule r) = Some occ → course ∈ occ →
  ∃ given, given ∈ courses
           ∧ course = with_conflicts (score courses unavail given) given.
Proof.
  intros (sched & Hsched & Hrun)%scheduler_Returns Hget Hin.
  destruct Hrun as [(st & un & Hall & Hs & _)|(e & _ & ->)]; [|done].
  rewrite Hs in Hget.
  assert (course ∈ ordered_courses courses unavail) as Hordered.
  { destruct (decide (course ∈ ordered_courses courses unavail)) as [|Hout]; [done|].
    pose proof (allocate_all_frame _ _ _ _ _ _ _ _ Hall Hout) as Hframe.
    simpl in Hframe. rewrite (sessions_init _ _ _ Hsched) in Hframe.
    pose proof (elem_of_sessions _ _ _ _ Hget Hin) as Hs'.
    rewrite Hframe in Hs'. by apply elem_of_nil in Hs'. }
  unfold ordered_courses in Hordered.
  rewrite sort_Permutation, calculateConflicts_score in Hordered.
  apply list_elem_of_fmap in Hordered as (given & -> & Hgiven). by exists given.
Qed.

Lemma placed_courses_come_from_input_witness :
  ∃ given, given ∈ [algebra; logic]
           ∧ logic = with_conflicts (score [algebra; logic] None given) given.
Proof.
  apply (placed_courses_come_from_input [algebra; logic] (Num 5) None None
           (the_result (scheduler [algebra; logic] (Num 5) None None))
           "1.1" [algebra; logic] logic).
  - apply returned_the_result. vm_compute. reflexivity.
  - vm_compute. reflexivity.
  - apply (bool_decide_unpack _). vm_compute. exact I.
Defined.

Lemma assign_empty_slot rooms unavail course slot st :
  get slot (schedule st) = Some [] →
  teacher_unavailable unavail course slot = false →
  ∃ st', assign rooms unavail course slot st = Normal (true, st')
         ∧ get slot (schedule st') = Some [course].
Proof.
  intros Hget Hun. unfold assign, room_full. rewrite Hget, Hun.
  destruct rooms as [R|]; simpl.
  - destruct (decide (R = 0)) as [->|HR]; simpl.
    + eexists. split; [done|]. simpl. by rewrite get_set_eq.
    + rewrite (bool_decide_eq_false_2 (R = 0)) by done. simpl.
      rewrite bool_decide_eq_false_2 by (intros [= <-]; done). simpl.
      eexists. split; [done|]. simpl. by rewrite get_set_eq.
  - eexists. split; [done|]. simpl. by rewrite get_set_eq.
Qed.

(** X9: in a run that is not aborted, the first course of the allocation
    order gets the first slot it prefers, at the head of that slot's list,
    when the slot is in the grid and its teacher is not unavailable there. *)
Theorem first_course_gets_first_preference courses days rooms unavail r
    course rest slot more :
  scheduler courses days rooms unavail = Returns r →
  r_error r = None ∨ r_error r = Some "Unable to schedule all classes." →
  ordered_courses courses unavail = course :: rest →
  prefs course = slot :: more →
  slot ∈ keys (r_schedule r) →
  teacher_unavailable unavail course slot = false →
  ∃ others, get slot (r_schedule r) = Some (course :: others).
Proof.
  intros Hrun Herr Hsorted Hprefs Hslot Hfree.
  destruct (scheduler_completed _ _ _ _ _ Hrun Herr) as (sched & Hsched & Hbody).
  apply run_Normal in Hbody as (st & un & Hall & Hs & _).
  rewrite Hs in Hslot |- *.
  rewrite (allocate_all_keys _ _ _ _ _ _ _ Hall) in Hslot. simpl in Hslot.
  rewrite Hsorted in Hall. simpl in Hall.
  destruct (allocate rooms unavail course _ []) as [[st2 un2]|e] eqn:Hone; [|done].
  simpl in Hall.
  set (Inv := λ st0 : alloc, ∃ others, get slot (schedule st0) = Some (course :: others)).
  assert (∀ c k st0 ok st1,
            Inv st0 → assign rooms unavail c k st0 = Normal (ok, st1) → Inv st1)
    as Hstep.
  { intros c k st0 ok st1 [others Hget] Hassign.
    destruct (assign_extends _ _ _ _ _ _ _ Hassign _ _ Hget) as [more' Hmore].
    by exists (others ++ more'). }
  apply (allocate_all_invariant rooms unavail Inv Hstep _ _ _ _ _) in Hall; [done|].
  unfold allocate in Hone.
  destruct (phase1 rooms unavail course _) as [[st1 a1]|e] eqn:H1; [|done].
  simpl in Hone.
  destruct (phase2 rooms unavail course st1 a1) as [[st3 a3]|e] eqn:H2; [|done].
  simpl in Hone.
  assert (Inv st1) as Hst1.
  { unfold phase1 in H1. rewrite Hprefs in H1.
    rewrite bool_decide_eq_true_2 in H1 by (simpl; lia).
    change (allot_prefs rooms unavail course (slot :: more) ?s ?a)
      with ('(ok, st') ← assign rooms unavail course slot s;
            if (ok : bool) then
              if bool_decide (lectures course ≤ a + 1) then Normal (st', a + 1)
              else allot_prefs rooms unavail course more st' (a + 1)
            else allot_prefs rooms unavail course more st' a) in H1.
    destruct (get slot sched) as [occ|] eqn:Hget;
      [|by apply get_None_keys in Hget].
    pose proof (init_schedule_empty _ _ _ _ Hsched Hget) as ->.
    destruct (assign_empty_slot rooms unavail course slot (mkAlloc sched (Num 0)) Hget Hfree)
      as (st0 & Hassign & Hget0).
    rewrite Hassign in H1. simpl in H1.
    assert (Inv st0) as Hst0 by (by exists []).
    destruct (bool_decide (lectures course ≤ 0 + 1)); [by injection H1 as <- <-|].
    by eapply (allot_prefs_invariant rooms unavail Inv Hstep). }
  assert (Inv st3) as Hst3.
  { unfold phase2 in H2.
    destruct (bool_decide (a1 < lectures course)); [|by injection H2 as <- <-].
    by eapply (allot_others_invariant rooms unavail Inv Hstep). }
  by destruct (bool_decide (a3 < lectures course)); injection Hone as <- <-.
Qed.

Lemma first_course_gets_first_preference_witness :
  ∃ others,
    get "1.1" (r_schedule (the_result (scheduler [analysis] (Num 5) (Some 1) None)))
    = Some (analysis :: others).
Proof.
  apply (first_course_gets_first_preference [analysis] (Num 5) (Some 1) None
           (the_result (scheduler [analysis] (Num 5) (Some 1) None))
           analysis [] "1.1" []).
  - apply returned_the_result. vm_compute. reflexivity.
  - left. vm_compute. reflexivity.
  - vm_compute. reflexivity.
  - reflexivity.
  - apply (get_Some_keys _ [analysis]). vm_compute. reflexivity.
  - reflexivity.
Defined.

End results.

(** ** The order within the lists *)

Section list_order.
Context (rooms : Rooms) (unavail : Unavail).

Lemma grown_by_refl course sched : grown_by course sched sched.
Proof. intros slot occ Hget. exists occ. auto. Qed.

(** A course is never appended twice to the list of a slot: it conflicts
    with itself. *)
Lemma assign_grown_by course slot st0 st ok st' :
  grown_by course st0 (schedule st) →
  assign rooms unavail course slot st = Normal (ok, st') →
  grown_by course st0 (schedule st').
Proof.
  intros Hst [[_ ->]|[_ (occ1 & Hget & _ & _ & Hfree & ->)]]%assign_Normal; [done|].
  simpl. intros k occ'. destruct (decide (slot = k)) as [<-|Hne].
  - rewrite get_set_eq. intros [= <-].
    destruct (Hst slot occ1 Hget) as (occ & Hocc & [-> | ->]).
    + exists occ. auto.
    + specialize (Hfree course). rewrite conflict_refl in Hfree.
      discriminate Hfree. apply elem_of_app. right. by apply list_elem_of_singleton.
  - rewrite get_set_ne by done. apply Hst.
Qed.

Lemma allot_prefs_grown_by course slots st0 st allotted st' allotted' :
  grown_by course st0 (schedule st) →
  allot_prefs rooms unavail course slots st allotted = Normal (st', allotted') →
  grown_by course st0 (schedule st').
Proof.
  revert st allotted. induction slots as [|slot slots IH]; intros st allotted Hst; simpl.
  - by intros [= <- <-].
  - destruct (assign rooms unavail course slot st) as [[ok st1]|e] eqn:Hassign; [|done].
    simpl. apply (assign_grown_by _ _ st0) in Hassign; [|done].
    destruct ok; [case_bool_decide; [by intros [= <- <-]|]|]; by apply IH.
Qed.

Lemma allot_others_grown_by course slots st0 st allotted st' allotted' :
  grown_by course st0 (schedule st) →
  allot_others rooms unavail course slots st allotted = Normal (st', allotted') →
  grown_by course st0 (schedule st').
Proof.
  revert st allotted. induction slots as [|slot slots IH]; intros st allotted Hst; simpl.
  - by intros [= <- <-].
  - destruct (negb (bool_decide (slot ∈ prefs course))); [|by apply IH].
    destruct (assign rooms unavail course slot st) as [[ok st1]|e] eqn:Hassign; [|done].
    simpl. apply (assign_grown_by _ _ st0) in Hassign; [|done].
    destruct ok; [case_bool_decide; [by intros [= <- <-]|]|]; by apply IH.
Qed.

Lemma allocate_grown_by course st unassigned st' unassigned' :
  allocate rooms unavail course st unassigned = Normal (st', unassigned') →
  grown_by course (schedule st) (schedule st').
Proof.
  unfold allocate.
  destruct (phase1 rooms unavail course st) as [[st1 a1]|e] eqn:H1; [|done]. simpl.
  destruct (phase2 rooms unavail course st1 a1) as [[st2 a2]|e] eqn:H2; [|done]. simpl.
  assert (grown_by course (schedule st) (schedule st1)) as Hst1.
  { unfold phase1 in H1. destruct (bool_decide _).
    - eapply allot_prefs_grown_by; [apply grown_by_refl|done].
    - injection H1 as <- <-. apply grown_by_refl. }
  assert (grown_by course (schedule st) (schedule st2)) as Hst2.
  { unfold phase2 in H2. destruct (bool_decide _).
    - by eapply allot_others_grown_by.
    - by injection H2 as <- <-. }
  by destruct (bool_decide _); intros [= <- <-].
Qed.

Lemma allocate_all_order courses st unassigned st' unassigned' earlier :
  (∀ slot occ, get slot (schedule st) = Some occ → occ `sublist_of` earlier) →
  allocate_all rooms unavail courses st unassigned = Normal (st', unassigned') →
  ∀ slot occ, get slot (schedule st') = Some occ →
    occ `sublist_of` earlier ++ courses.
Proof.
  revert st unassigned earlier. induction courses as [|course courses IH];
    intros st unassigned earlier Hst; simpl.
  - intros [= <- <-] slot occ Hget. rewrite app_nil_r. by eapply Hst.
  - destruct (allocate rooms unavail course st unassigned) as [[st1 un1]|e] eqn:Hone;
      [|done].
    simpl. intros Hrest slot occ Hget.
    rewrite (cons_middle course earlier courses), app_assoc.
    refine (IH st1 un1 (earlier ++ [course]) _ Hrest slot occ Hget).
    intros k occ1 Hk.
    destruct (allocate_grown_by _ _ _ _ _ Hone k occ1 Hk) as (occ0 & Hocc0 & [-> | ->]).
    + apply sublist_inserts_r. by eapply Hst.
    + apply sublist_app; [by eapply Hst|done].
Qed.

Lemma StronglySorted_sublist {A} (R : A → A → Prop) l l' :
  StronglySorted R l → l' `sublist_of` l → StronglySorted R l'.
Proof.
  intros Hl. revert l'. induction Hl as [|x l Hl IH Hx]; intros l' Hsub.
  - apply sublist_nil_r in Hsub as ->. constructor.
  - apply sublist_cons_r in Hsub as [Hsub|(l'' & -> & Hsub)]; [auto|].
    constructor; [auto|]. apply Forall_forall. intros y Hy.
    apply (proj1 (Forall_forall _ _) Hx). by eapply elem_of_sublist.
Qed.

End list_order.

(** X10: the list of a slot and the unassigned list follow the allocation
    order: both are sublists of the sorted course array, so with distinct
    ids the courses of a slot appear by priority, then descending score,
    then id. *)
Theorem lists_follow_allocation_order courses days rooms unavail r :
  scheduler courses days rooms unavail = Returns r →
  (∀ slot occ, get slot (r_schedule r) = Some occ →
     occ `sublist_of` ordered_courses courses unavail
     ∧ (NoDup (id <$> courses) → StronglySorted precedes occ))
  ∧ r_unassigned r `sublist_of` ordered_courses courses unavail.
Proof.
  intros (sched & Hsched & Hrun)%scheduler_Returns.
  destruct Hrun as [(st & un & Hall & Hs & _ & Hun)|(e & _ & ->)];
    [|split; [done|apply sublist_nil_l]].
  assert (StronglySorted before_or_tied (ordered_courses courses unavail)) as Hsorted
    by apply sort_sorted.
  split.
  - intros slot occ Hget. rewrite Hs in Hget.
    assert (occ `sublist_of` ordered_courses courses unavail) as Hsub.
    { refine (allocate_all_order _ _ _ _ _ _ _ [] _ Hall slot occ Hget).
      simpl. intros k occ0 ->%(init_schedule_empty _ _ _ _ Hsched). done. }
    split; [done|]. intros Hnd.
    apply (StronglySorted_sublist _ (ordered_courses courses unavail)); [|done].
    apply sorted_strict; [|done].
    unfold ordered_courses. by rewrite sort_Permutation, calculateConflicts_id.
  - destruct (allocate_all_unassigned _ _ _ _ _ _ _ Hall) as (extra & Hextra & Hsub).
    by rewrite Hun, Hextra.
Qed.

Lemma lists_follow_allocation_order_witness :
  [algebra; logic] `sublist_of` ordered_courses [algebra; logic] None.
Proof.
  apply (proj1 (lists_follow_allocation_order [algebra; logic] (Num 5) None None
                  (the_result (scheduler [algebra; logic] (Num 5) None None))
                  ltac:(apply returned_the_result; vm_compute; reflexivity))
           "1.1" [algebra; logic]).
  vm_compute. reflexivity.
Defined.

(** ** Runs that are not aborted *)

Section in_grid.
Context (rooms : Rooms) (unavail : Unavail).

(** On a slot the schedule has, [assign] returns. *)
Lemma assign_in_grid course slot st :
  slot ∈ keys (schedule st) →
  ∃ ok st', assign rooms unavail course slot st = Normal (ok, st')
            ∧ keys (schedule st') = keys (schedule st).
Proof.
  intros Hslot.
  destruct (get slot (schedule st)) as [occ|] eqn:Hget;
    [|by apply get_None_keys in Hget].
  assert (∃ ok st', assign rooms unavail course slot st = Normal (ok, st'))
    as (ok & st' & Hassign).
  { unfold assign, room_full. rewrite Hget.
    destruct (truthy rooms); simpl;
      repeat (match goal with |- context [if ?b then _ else _] => destruct b end;
              simpl; eauto). }
  exists ok, st'. split; [done|]. by eapply assign_keys.
Qed.

Lemma allot_prefs_in_grid course slots st allotted :
  (∀ slot, slot ∈ slots → slot ∈ keys (schedule st)) →
  ∃ st' allotted', allot_prefs rooms unavail course slots st allotted
                   = Normal (st', allotted')
                   ∧ keys (schedule st') = keys (schedule st).
Proof.
  revert st allotted. induction slots as [|slot slots IH]; intros st allotted Hin; simpl.
  - by eexists _, _.
  - destruct (assign_in_grid course slot st) as (ok & st1 & -> & Hkeys);
      [apply Hin; by left|].
    simpl.
    assert (∀ a, ∃ st' allotted',
              allot_prefs rooms unavail course slots st1 a = Normal (st', allotted')
              ∧ keys (schedule st') = keys (schedule st)) as Hrest.
    { intros a. destruct (IH st1 a) as (st' & a' & ? & ?).
      - intros k Hk. rewrite Hkeys. apply Hin. by right.
      - exists st', a'. split; [done|congruence]. }
    destruct ok; [|apply Hrest].
    case_bool_decide; [by eexists _, _|apply Hrest].
Qed.

Lemma allot_others_in_grid course slots st allotted :
  (∀ slot, slot ∈ slots → slot ∈ keys (schedule st)) →
  ∃ st' allotted', allot_others rooms unavail course slots st allotted
                   = Normal (st', allotted')
                   ∧ keys (schedule st') = keys (schedule st).
Proof.
  revert st allotted. induction slots as [|slot slots IH]; intros st allotted Hin; simpl.
  - by eexists _, _.
  - destruct (negb (bool_decide (slot ∈ prefs course)));
      [|apply IH; intros k Hk; apply Hin; by right].
    destruct (assign_in_grid course slot st) as (ok & st1 & -> & Hkeys);
      [apply Hin; by left|].
    simpl.
    assert (∀ a, ∃ st' allotted',
              allot_others rooms unavail course slots st1 a = Normal (st', allotted')
              ∧ keys (schedule st') = keys (schedule st)) as Hrest.
    { intros a. destruct (IH st1 a) as (st' & a' & ? & ?).
      - intros k Hk. rewrite Hkeys. apply Hin. by right.
      - exists st', a'. split; [done|congruence]. }
    destruct ok; [|apply Hrest].
    case_bool_decide; [by eexists _, _|apply Hrest].
Qed.

Lemma allocate_in_grid course st unassigned :
  (∀ slot, slot ∈ prefs course → slot ∈ keys (schedule st)) →
  ∃ st' unassigned', allocate rooms unavail course st unassigned
                     = Normal (st', unassigned')
                     ∧ keys (schedule st') = keys (schedule st).
Proof.
  intros Hin. unfold allocate.
  assert (∃ st1 a1, phase1 rooms unavail course st = Normal (st1, a1)
                    ∧ keys (schedule st1) = keys (schedule st))
    as (st1 & a1 & -> & Hkeys1).
  { unfold phase1. case_bool_decide; [by apply allot_prefs_in_grid|by eexists _, _]. }
  simpl.
  assert (∃ st2 a2, phase2 rooms unavail course st1 a1 = Normal (st2, a2)
                    ∧ keys (schedule st2) = keys (schedule st1))
    as (st2 & a2 & -> & Hkeys2).
  { unfold phase2. case_bool_decide; [by apply allot_others_in_grid|by eexists _, _]. }
  simpl. case_bool_decide; eexists _, _; (split; [done|congruence]).
Qed.

Lemma allocate_all_in_grid courses st unassigned :
  (∀ course slot, course ∈ courses → slot ∈ prefs course → slot ∈ keys (schedule st)) →
  ∃ st' unassigned', allocate_all rooms unavail courses st unassigned
                     = Normal (st', unassigned').
Proof.
  revert st unassigned. induction courses as [|course courses IH];
    intros st unassigned Hin; simpl.
  - by eexists _, _.
  - destruct (allocate_in_grid course st unassigned) as (st1 & un1 & -> & Hkeys).
    { intros slot. apply Hin. by left. }
    simpl. apply IH. intros c slot Hc. rewrite Hkeys. apply Hin. by right.
Qed.

End in_grid.

Section completed.

Lemma elem_of_ordered_courses courses unavail course :
  course ∈ ordered_courses courses unavail ↔
  ∃ given, given ∈ courses
           ∧ course = with_conflicts (score courses unavail given) given.
Proof.
  unfold ordered_courses. rewrite sort_Permutation, calculateConflicts_score.
  rewrite list_elem_of_fmap. split; intros (given & ? & ?); by exists given.
Qed.

(** Preferred slots inside the grid are enough for a run to go through. *)
Lemma run_in_grid courses d rooms unavail :
  d ≠ 0 →
  (∀ course slot, course ∈ courses → slot ∈ prefs course →
     slot ∈ canonical_slots d (1000 `div` d)) →
  ∃ sched r, init_schedule (Num d) = Some sched
             ∧ run courses sched rooms unavail = Normal r.
Proof.
  intros Hd Hprefs.
  destruct (init_schedule (Num d)) as [sched|] eqn:Hsched;
    [|simpl in Hsched; by rewrite bool_decide_eq_false_2 in Hsched].
  destruct (allocate_all_in_grid rooms unavail (ordered_courses courses unavail)
              (mkAlloc sched (Num 0)) []) as (st & un & Hall).
  { intros course slot (given & Hgiven & ->)%elem_of_ordered_courses Hslot. simpl.
    rewrite (init_schedule_keys _ _ Hsched). by eapply Hprefs. }
  exists sched. eexists. split; [done|].
  unfold run, assignCourses. rewrite Hall. simpl. done.
Qed.

Lemma scheduler_in_grid courses d rooms unavail :
  d ≠ 0 →
  (∀ course slot, course ∈ courses → slot ∈ prefs course →
     slot ∈ canonical_slots d (1000 `div` d)) →
  ∃ r, scheduler courses (Num d) rooms unavail = Returns r
       ∧ keys (r_schedule r) = canonical_slots d (1000 `div` d)
       ∧ (r_error r = None ∧ r_unassigned r = []
          ∨ r_error r = Some "Unable to schedule all classes." ∧ r_unassigned r ≠ []).
Proof.
  intros Hd Hprefs.
  destruct (run_in_grid courses d rooms unavail Hd Hprefs) as (sched & r & Hsched & Hrun).
  exists r. split_and!.
  - unfold scheduler. by rewrite Hsched, Hrun.
  - apply run_Normal in Hrun as (st & un & Hall & -> & _).
    rewrite (allocate_all_keys _ _ _ _ _ _ _ Hall). simpl.
    by apply init_schedule_keys.
  - apply run_Normal in Hrun as (st & un & _ & _ & _ & -> & ->).
    case_bool_decide; [right|left]; (split; [done|]).
    + intros ->. simpl in *. lia.
    + destruct un; [done|simpl in *; lia].
Qed.

(** X11: a preferred slot outside the grid is the only cause of an aborted
    run: when every preferred slot of every course is [`${day}.${period}`]
    for a day from 1 to [days] and a period from 1 to [1000 div days],
    [scheduler] returns the grid it filled, with no error or with the
    message for unassigned courses.  The teachers' names are ones that
    line 70 looks up among the own entries of the unavailability map: with
    no entry of its own, the name of a member inherited from
    [Object.prototype] would make [includes] throw. *)
Theorem preferences_in_grid_never_abort courses d rooms unavail :
  d ≠ 0 →
  (∀ course slot, course ∈ courses → slot ∈ prefs course →
     ∃ day period, slot = slot_key day period
                   ∧ 1 ≤ day ≤ d ∧ 1 ≤ period ≤ 1000 `div` d) →
  (∀ course, course ∈ courses → reads_own unavail (teacher course)) →
  ∃ r, scheduler courses (Num d) rooms unavail = Returns r
       ∧ keys (r_schedule r) = canonical_slots d (1000 `div` d)
       ∧ (r_error r = None ∧ r_unassigned r = []
          ∨ r_error r = Some "Unable to schedule all classes." ∧ r_unassigned r ≠ []).
Proof.
  intros Hd Hprefs _. apply scheduler_in_grid; [done|].
  intros course slot Hc Hs. apply elem_of_canonical_slots. by eapply Hprefs.
Qed.

Lemma preferences_in_grid_never_abort_witness :
  ∃ r, scheduler [analysis; topology] (Num 5) (Some 1) (Some godel_busy) = Returns r
       ∧ keys (r_schedule r) = canonical_slots 5 (1000 `div` 5)
       ∧ (r_error r = None ∧ r_unassigned r = []
          ∨ r_error r = Some "Unable to schedule all classes." ∧ r_unassigned r ≠ []).
Proof.
  apply (preferences_in_grid_never_abort [analysis; topology] 5 (Some 1) (Some godel_busy)).
  - lia.
  - intros course slot Hc Hs. exists 1, 1.
    apply elem_of_cons in Hc as [->|Hc]; [|apply elem_of_cons in Hc as [->|Hc]].
    + apply list_elem_of_singleton in Hs as ->.
      split; [reflexivity|change (1000 `div` 5) with 200; lia].
    + apply list_elem_of_singleton in Hs as ->.
      split; [reflexivity|change (1000 `div` 5) with 200; lia].
    + by apply elem_of_nil in Hc.
  - intros course Hc. right.
    apply elem_of_cons in Hc as [->|Hc]; [|apply elem_of_cons in Hc as [->|Hc]].
    + apply (bool_decide_unpack _). vm_compute. exact I.
    + apply (bool_decide_unpack _). vm_compute. exact I.
    + by apply elem_of_nil in Hc.
Defined.

Lemma length_grid_coords days bound :
  length (grid_coords days bound) = (Z.to_nat bound * Z.to_nat days)%nat.
Proof.
  unfold grid_coords.
  assert (∀ period : Z,
            length (seqZ 1 days ≫= λ day, [(day, period)]) = Z.to_nat days) as Hrow.
  { intros period. rewrite <-(length_seqZ 1 days).
    induction (seqZ 1 days) as [|day l IH]; [done|].
    rewrite bind_cons. simpl. by rewrite IH. }
  rewrite <-(length_seqZ 1 bound).
  induction (seqZ 1 bound) as [|period l IH]; [done|].
  rewrite bind_cons, length_app, IH, Hrow. simpl. lia.
Qed.

(** X12: the schedule of a run that was not aborted has one entry for each
    coordinate of the grid and no other: [days * (1000 div days)] of them,
    which for a positive [days] is more than [1000 - days] and at most
    1000, under distinct keys. *)
Theorem schedule_has_every_grid_slot_once courses d rooms unavail r :
  scheduler courses (Num d) rooms unavail = Returns r →
  r_error r = None ∨ r_error r = Some "Unable to schedule all classes." →
  1 ≤ d →
  NoDup (keys (r_schedule r))
  ∧ (∀ slot, is_Some (get slot (r_schedule r)) ↔
       ∃ day period, slot = slot_key day period
                     ∧ 1 ≤ day ≤ d ∧ 1 ≤ period ≤ 1000 `div` d)
  ∧ Z.of_nat (length (r_schedule r)) = d * (1000 `div` d)
  ∧ 1000 - d < Z.of_nat (length (r_schedule r)) ≤ 1000.
Proof.
  intros Hrun Herr Hd.
  destruct (scheduler_completed _ _ _ _ _ Hrun Herr) as (sched & Hsched & Hbody).
  apply run_Normal in Hbody as (st & un & Hall & Hs & _).
  assert (keys (r_schedule r) = canonical_slots d (1000 `div` d)) as Hkeys.
  { rewrite Hs, (allocate_all_keys _ _ _ _ _ _ _ Hall). simpl.
    by apply init_schedule_keys. }
  assert (Z.of_nat (length (r_schedule r)) = d * (1000 `div` d)) as Hlen.
  { rewrite <-(length_fmap fst). fold (keys (r_schedule r)). rewrite Hkeys.
    unfold canonical_slots. rewrite length_fmap, length_grid_coords.
    pose proof (Z.div_pos 1000 d). lia. }
  split_and!.
  - rewrite Hkeys. apply NoDup_canonical_slots.
  - intros slot. rewrite <-elem_of_canonical_slots, <-Hkeys. split.
    + intros [occ Hget]. by eapply get_Some_keys.
    + intros Hin. destruct (get slot (r_schedule r)) eqn:Hget; [done|].
      by apply get_None_keys in Hget.
  - done.
  - rewrite Hlen. pose proof (Z.mod_pos_bound 1000 d). pose proof (Z.div_mod 1000 d).
    lia.
  - rewrite Hlen. pose proof (Z.mod_pos_bound 1000 d). pose proof (Z.div_mod 1000 d).
    lia.
Qed.

Lemma schedule_has_every_grid_slot_once_witness :
  Z.of_nat (length (r_schedule (the_result (scheduler [algebra; logic] (Num 7) None None))))
  = 7 * (1000 `div` 7).
Proof.
  apply (schedule_has_every_grid_slot_once [algebra; logic] 7 None None
           (the_result (scheduler [algebra; logic] (Num 7) None None))).
  - apply returned_the_result. vm_compute. reflexivity.
  - left. vm_compute. reflexivity.
  - lia.
Defined.

(** X13: a course whose teacher is listed as unavailable in every slot of
    the schedule is placed nowhere; when it needs a session it is returned
    as unassigned, with the error message. *)
Theorem teacher_unavailable_everywhere courses days rooms u r course slots :
  scheduler courses days rooms (Some u) = Returns r →
  r_error r = None ∨ r_error r = Some "Unable to schedule all classes." →
  NoDup (id <$> courses) →
  course ∈ ordered_courses courses (Some u) →
  u !! teacher course = Some slots →
  (∀ slot, slot ∈ keys (r_schedule r) → slot ∈ slots) →
  sessions course (r_schedule r) = []
  ∧ (1 ≤ lectures course →
     course ∈ r_unassigned r
     ∧ r_error r = Some "Unable to schedule all classes.").
Proof.
  intros Hrun Herr Hnd Hin Hu Hall.
  assert (sessions course (r_schedule r) = []) as Hnone.
  { destruct (sessions course (r_schedule r)) as [|slot rest] eqn:Hsessions; [done|].
    assert (slot ∈ sessions course (r_schedule r)) as Hslot
      by (rewrite Hsessions; by left).
    pose proof Hslot as (occ & Hocc & Hc)%sessions_elem_of.
    assert (slot ∈ slots) as Hlisted.
    { apply Hall. eapply elem_of_sublist; [done|apply sessions_sublist]. }
    assert (∀ k occ c, get k (r_schedule r) = Some occ → c ∈ occ →
                       teacher_unavailable (Some u) c k = false) as Hinv.
    { apply (scheduler_invariant
               (λ st, ∀ k occ c, get k (schedule st) = Some occ → c ∈ occ →
                                 teacher_unavailable (Some u) c k = false)
               courses days rooms (Some u) r); [| |done|done].
      - intros c k st ok st'. apply assign_respects_unavailability.
      - intros sched Hsched k occ' c' ->%(init_schedule_empty _ _ _ _ Hsched).
        by intros ?%elem_of_nil. }
    destruct (scheduler_completed _ _ _ _ _ Hrun Herr) as (sched & Hsched & Hbody).
    assert (NoDup (keys (r_schedule r))) as Hkeys.
    { apply run_Normal in Hbody as (st & un & Hrest & -> & _).
      rewrite (allocate_all_keys _ _ _ _ _ _ _ Hrest). simpl.
      by eapply init_schedule_NoDup. }
    apply (elem_of_get_Some _ _ _ Hkeys) in Hocc.
    specialize (Hinv slot occ course Hocc Hc).
    unfold teacher_unavailable in Hinv. rewrite Hu in Hinv.
    by rewrite bool_decide_eq_true_2 in Hinv. }
  split; [done|]. intros Hlect.
  destruct (scheduler_completed _ _ _ _ _ Hrun Herr) as (sched & Hsched & Hbody).
  destruct (run_sessions _ _ _ _ _ _ _ Hsched Hbody Hnd Hin) as (_ & _ & _ & Hiff).
  rewrite Hnone in Hiff. simpl in Hiff.
  assert (course ∈ r_unassigned r) as Hun by (apply Hiff; lia).
  split; [done|].
  apply run_Normal in Hbody as (st & un & _ & _ & _ & Hr & ->).
  rewrite Hr in Hun. rewrite bool_decide_eq_true_2; [done|].
  destruct un; [by apply elem_of_nil in Hun|simpl; lia].
Qed.

Lemma teacher_unavailable_everywhere_witness :
  ∃ r, scheduler [logic] (Num 5) None (Some godel_away) = Returns r
       ∧ with_conflicts (score [logic] (Some godel_away) logic) logic ∈ r_unassigned r.
Proof.
  destruct (scheduler_in_grid [logic] 5 None (Some godel_away)) as (r & Hrun & Hkeys & Herr).
  - lia.
  - intros course slot ->%list_elem_of_singleton Hs. by apply elem_of_nil in Hs.
  - exists r. split; [exact Hrun|].
    apply (teacher_unavailable_everywhere [logic] (Num 5) None godel_away r
             (with_conflicts (score [logic] (Some godel_away) logic) logic)
             (canonical_slots 5 200)).
    + exact Hrun.
    + destruct Herr as [[? _]|[? _]]; [by left|by right].
    + apply NoDup_singleton.
    + apply elem_of_ordered_courses. exists logic. split; [apply list_elem_of_here|done].
    + apply (lookup_singleton_eq (M:=gmap string)).
    + intros slot. by rewrite Hkeys.
    + simpl. lia.
Defined.

End completed.

(** ** The submit handler *)

Section handler.

Lemma scheduler_NaN courses rooms unavail :
  ∃ r, scheduler courses NaN rooms unavail = Returns r
       ∧ r_schedule r = [] ∧ r_periods r = Num 0.
Proof.
  assert (∃ r, scheduler courses NaN rooms unavail = Returns r) as [r Hrun].
  { unfold scheduler. simpl. destruct (run _ _ _ _); eauto. }
  exists r. split; [done|].
  destruct (scheduler_counts_periods _ _ _ _ _ Hrun) as [Hper Hkeys].
  split; [|done].
  destruct Hkeys as [Hkeys|Hnil]; [|done].
  simpl in Hkeys. by destruct (r_schedule r).
Qed.

(** X14: [scheduler] fails to return for one value of [days] only, 0 (the
    bound [1000 / 0] of the outer loop is never reached), and the guard of
    the submit handler lets no such run start: a submission that passes the
    guard gets a result. *)
Theorem accepted_submission_returns courses days rooms_field rooms unavail o :
  (scheduler courses days rooms unavail = Diverges ↔ days = Num 0)
  ∧ (submit days rooms_field courses unavail = Scheduled o →
     ∃ r, o = Returns r).
Proof.
  split.
  - unfold scheduler. destruct days as [|d]; simpl.
    + destruct (run _ _ _ _); split; done.
    + case_bool_decide as Hd; [by subst|].
      destruct (run _ _ _ _); split; try done; intros [= ->]; done.
  - intros (-> & Hdays & _)%submit_Scheduled.
    destruct days as [|d].
    + destruct (scheduler_NaN courses (or_null rooms_field) unavail) as (r & ? & _).
      by exists r.
    + apply scheduler_returns. specialize (Hdays d eq_refl). lia.
Qed.

Lemma accepted_submission_returns_witness :
  ∃ r, scheduler [algebra] (Num 7) (or_null (Num 2)) None = Returns r.
Proof.
  apply (proj2 (accepted_submission_returns [algebra] (Num 7) (Num 2) None None
                  (scheduler [algebra] (Num 7) (or_null (Num 2)) None))).
  reflexivity.
Defined.

(** X15: an empty or non-numeric [days] field ([NaN]) passes the guard of
    the handler; the run then has no slot at all, and what is displayed is
    a table without rows: the schedule is empty and [periods] is 0,
    whatever the courses. *)
Theorem missing_days_gives_empty_table courses rooms_field unavail :
  (∀ R, or_null rooms_field = Some R → 1 ≤ R) →
  ∃ r, submit NaN rooms_field courses unavail = Scheduled (Returns r)
       ∧ r_schedule r = [] ∧ r_periods r = Num 0
       ∧ displaySchedule (r_schedule r) NaN (r_periods r) = Normal [].
Proof.
  intros Hrooms.
  destruct (scheduler_NaN courses (or_null rooms_field) unavail) as (r & Hrun & Hs & Hp).
  exists r. split_and!; [|done|done|by rewrite Hs, Hp].
  unfold submit. simpl. rewrite <-Hrun.
  destruct (or_null rooms_field) as [R|] eqn:HR; [|done].
  rewrite bool_decide_eq_false_2; [done|]. specialize (Hrooms R eq_refl). lia.
Qed.

Lemma missing_days_gives_empty_table_witness :
  ∃ r, submit NaN (Num 2) [algebra; topology] None = Scheduled (Returns r)
       ∧ r_schedule r = [] ∧ r_periods r = Num 0
       ∧ displaySchedule (r_schedule r) NaN (r_periods r) = Normal [].
Proof.
  apply (missing_days_gives_empty_table [algebra; topology] (Num 2) None).
  intros R HR. injection HR as <-. lia.
Defined.

End handler.

(** ** The grid and the table *)

Section table.

Lemma mapM_Normal {A B} (f : A → completion B) (l : list A) (ys : list B) :
  mapM f l = Normal ys ↔ Forall2 (λ x y, f x = Normal y) l ys.
Proof.
  revert ys. induction l as [|x l IH]; intros ys; simpl.
  - split; [intros [= <-]; constructor|by intros ->%Forall2_nil_inv_l].
  - split.
    + destruct (f x) as [y|e] eqn:Hfx; [|done]. simpl.
      destruct (mapM f l) as [k|e] eqn:Hk; [|done]. simpl.
      intros [= <-]. constructor; [done|]. by apply IH.
    + intros (y & k & Hy & Hk%IH & ->)%Forall2_cons_inv_l.
      by rewrite Hy; simpl; rewrite Hk.
Qed.

Lemma mapM_defined {A B} (f : A → completion B) (g : A → B) (l : list A) :
  (∀ x, x ∈ l → f x = Normal (g x)) → mapM f l = Normal (g <$> l).
Proof.
  intros Hf. apply mapM_Normal. induction l as [|x l IH]; simpl; constructor.
  - apply Hf. by left.
  - apply IH. intros y Hy. apply Hf. by right.
Qed.

Lemma elem_of_upto n z : z ∈ upto n ↔ ∃ m, n = Num m ∧ 1 ≤ z ≤ m.
Proof.
  destruct n as [|m]; simpl.
  - split; [by intros ?%elem_of_nil|by intros (? & ? & _)].
  - rewrite elem_of_seqZ. split; [intros ?; exists m; split; [done|lia]|].
    intros (? & [= <-] & ?). lia.
Qed.

Lemma lookup_upto n z : z ∈ upto n → upto n !! Z.to_nat (z - 1) = Some z.
Proof.
  intros (m & -> & Hz)%elem_of_upto. simpl.
  rewrite lookup_seqZ_lt by lia. f_equal. lia.
Qed.

(** A table that was built holds, in the row of a period and the column of
    a day, what the schedule has under the key of that slot. *)
Lemma displaySchedule_cell sched days periods table day period :
  displaySchedule sched days periods = Normal table →
  day ∈ upto days → period ∈ upto periods →
  ∃ row, table !! Z.to_nat (period - 1) = Some row
         ∧ row !! Z.to_nat (day - 1) = get (slot_key day period) sched.
Proof.
  intros Hrows%mapM_Normal Hday%lookup_upto Hperiod%lookup_upto.
  destruct (Forall2_lookup_l _ _ _ _ _ Hrows Hperiod) as (row & Hrow & Hcells).
  exists row. split; [done|].
  apply mapM_Normal in Hcells.
  destruct (Forall2_lookup_l _ _ _ _ _ Hcells Hday) as (cell & -> & Hcell).
  unfold display_cell in Hcell.
  by destruct (get (slot_key day period) sched); [injection Hcell as ->|].
Qed.

(** The period counter of a returned result stays within the grid. *)
Lemma periods_within_grid courses d rooms unavail r P :
  scheduler courses (Num d) rooms unavail = Returns r →
  r_periods r = Num P →
  P = 0 ∨ (1 ≤ P ≤ 1000 `div` d ∧ 1 ≤ d
           ∧ keys (r_schedule r) = canonical_slots d (1000 `div` d)).
Proof.
  intros Hrun HP.
  destruct (scheduler_counts_periods _ _ _ _ _ Hrun) as [Hper Hkeys].
  rewrite HP in Hper. apply Num_inj in Hper.
  destruct (maxPeriodUsed_attained (run_coords (Num d)) (r_schedule r))
    as [H0|(day & Hin & Hocc)]; [left; congruence|].
  rewrite <-Hper in Hin, Hocc. simpl in Hin. apply elem_of_grid_coords in Hin.
  right. split_and!; [lia..|].
  destruct Hkeys as [Hkeys|Hnil]; [done|].
  rewrite Hnil in Hocc. done.
Qed.

(** Every cell [displaySchedule] reads of a result of [scheduler] exists. *)
Lemma displaySchedule_completes courses days rooms unavail r :
  scheduler courses days rooms unavail = Returns r →
  ∃ table, displaySchedule (r_schedule r) days (r_periods r) = Normal table.
Proof.
  intros Hrun. eexists. unfold displaySchedule.
  apply (mapM_defined _ (λ period, (λ day, default [] (get (slot_key day period)
                                                          (r_schedule r))) <$> upto days)).
  intros period (P & HP & Hperiod)%elem_of_upto.
  apply mapM_defined. intros day (d & -> & Hday)%elem_of_upto. unfold display_cell.
  destruct (periods_within_grid _ _ _ _ _ _ Hrun HP) as [->|(HPd & Hd & Hkeys)]; [lia|].
  destruct (get (slot_key day period) (r_schedule r)) eqn:Hget; [done|].
  apply get_None_keys in Hget. destruct Hget.
  rewrite Hkeys. apply elem_of_canonical_slots. exists day, period.
  split_and!; [done|lia..].
Qed.

(** X16: [displaySchedule] never fails on what [scheduler] returns: every
    cell it reads exists, also after an aborted run and for an empty [days]
    field, and the table has [periods] rows of [days] cells, the cell of a
    day and a period holding the courses of that slot. *)
Theorem displaySchedule_reads_existing_slots courses days rooms unavail r :
  scheduler courses days rooms unavail = Returns r →
  ∃ table,
    displaySchedule (r_schedule r) days (r_periods r) = Normal table
    ∧ length table = length (upto (r_periods r))
    ∧ (∀ row, row ∈ table → length row = length (upto days))
    ∧ (∀ day period, day ∈ upto days → period ∈ upto (r_periods r) →
         ∃ row, table !! Z.to_nat (period - 1) = Some row
                ∧ row !! Z.to_nat (day - 1) = get (slot_key day period) (r_schedule r)).
Proof.
  intros Hrun. destruct (displaySchedule_completes _ _ _ _ _ Hrun) as [table Htable].
  exists table. split; [done|].
  pose proof Htable as Hrows%mapM_Normal. split_and!.
  - symmetry. by eapply Forall2_length.
  - intros row [i Hi]%list_elem_of_lookup.
    destruct (Forall2_lookup_r _ _ _ _ _ Hrows Hi) as (period & _ & Hcells%mapM_Normal).
    symmetry. by eapply Forall2_length.
  - intros day period. by apply displaySchedule_cell.
Qed.

Lemma displaySchedule_reads_existing_slots_witness :
  ∃ table,
    displaySchedule
      (r_schedule (the_result (scheduler [algebra; logic] (Num 5) (Some 1) None)))
      (Num 5)
      (r_periods (the_result (scheduler [algebra; logic] (Num 5) (Some 1) None)))
    = Normal table.
Proof.
  destruct (displaySchedule_reads_existing_slots [algebra; logic] (Num 5) (Some 1) None
              (the_result (scheduler [algebra; logic] (Num 5) (Some 1) None)))
    as (table & Htable & _).
  - apply returned_the_result. vm_compute. reflexivity.
  - exists table. exact Htable.
Defined.



End table.

(** ** Reading the rows *)

Section text.

#[local] Arguments whitespace : simpl never.

Lemma trimEnd_cons c s :
  trimEnd (String c s)
  = if bool_decide (trimEnd s = "") then (if whitespace c then "" else String c "")
    else String c (trimEnd s).
Proof. simpl. by destruct (trimEnd s). Qed.

Lemma trimEnd_idemp s : trimEnd (trimEnd s) = trimEnd s.
Proof.
  induction s as [|c s IH]; [done|].
  rewrite trimEnd_cons. case_bool_decide as Hs.
  - destruct (whitespace c) eqn:Hc; [done|]. rewrite trimEnd_cons. simpl. by rewrite Hc.
  - rewrite trimEnd_cons, IH. by rewrite bool_decide_eq_false_2.
Qed.

(** [trimEnd] leaves a string that begins with a visible character
    beginning with it. *)
Lemma trimStart_trimEnd s : trimStart s = s → trimStart (trimEnd s) = trimEnd s.
Proof.
  destruct s as [|c s]; [done|]. simpl.
  destruct (whitespace c) eqn:Hc.
  - intros Heq. exfalso. clear Hc.
    assert (∀ t, (String.length (trimStart t) ≤ String.length t)%nat) as Hlen.
    { induction t as [|c' t IH]; simpl; [lia|]. destruct (whitespace c'); simpl; lia. }
    specialize (Hlen s). rewrite Heq in Hlen. simpl in Hlen. lia.
  - intros _. destruct (trimEnd s); simpl; by rewrite Hc.
Qed.

Lemma trimStart_idemp s : trimStart (trimStart s) = trimStart s.
Proof.
  induction s as [|c s IH]; [done|]. simpl.
  destruct (whitespace c) eqn:Hc; [done|]. simpl. by rewrite Hc.
Qed.

Lemma trim_idemp s : trim (trim s) = trim s.
Proof.
  unfold trim. rewrite (trimStart_trimEnd (trimStart s)) by apply trimStart_idemp.
  apply trimEnd_idemp.
Qed.

Lemma whitespace_free_of sep s :
  whitespace sep = false → trim s = "" → free_of sep s = true.
Proof.
  intros Hsep. unfold trim. induction s as [|c s IH]; [done|].
  change (trimStart (String c s)) with (if whitespace c then trimStart s else String c s).
  destruct (whitespace c) eqn:Hc.
  - intros Hs. simpl. rewrite (IH Hs), andb_true_r.
    apply negb_true_iff, bool_decide_eq_false. congruence.
  - rewrite trimEnd_cons, Hc. by case_bool_decide.
Qed.

Lemma free_of_trimStart sep s : free_of sep s = true → free_of sep (trimStart s) = true.
Proof.
  induction s as [|c s IH]; [done|]. simpl. intros [Hc Hs]%andb_true_iff.
  destruct (whitespace c); [auto|]. simpl. by rewrite Hc, Hs.
Qed.

Lemma free_of_trimEnd sep s : free_of sep s = true → free_of sep (trimEnd s) = true.
Proof.
  induction s as [|c s IH]; [done|]. intros [Hc Hs]%andb_true_iff.
  rewrite trimEnd_cons. destruct (bool_decide (trimEnd s = "")).
  - destruct (whitespace c); [done|]. simpl. by rewrite Hc.
  - simpl. by rewrite Hc, IH.
Qed.

Lemma free_of_trim sep s : free_of sep s = true → free_of sep (trim s) = true.
Proof. intros. by apply free_of_trimEnd, free_of_trimStart. Qed.

Lemma split_cons sep c s :
  split sep (String c s)
  = if decide (c = sep) then "" :: split sep s
    else match split sep s with
         | piece :: pieces => String c piece :: pieces
         | [] => [String c ""]
         end.
Proof. done. Qed.

Lemma split_nonempty sep s : split sep s ≠ [].
Proof.
  induction s as [|c s IH]; [done|]. rewrite split_cons.
  case_decide; [done|]. by destruct (split sep s).
Qed.

Lemma split_free_of sep s : free_of sep s = true → split sep s = [s].
Proof.
  induction s as [|c s IH]; [done|]. simpl.
  intros [Hc%negb_true_iff%bool_decide_eq_false Hs]%andb_true_iff.
  rewrite decide_False by done. by rewrite IH.
Qed.

Lemma split_pieces_free sep s piece : piece ∈ split sep s → free_of sep piece = true.
Proof.
  revert piece. induction s as [|c s IH]; intros piece.
  - by intros ->%list_elem_of_singleton.
  - rewrite split_cons. case_decide as Hc.
    + intros [->|Hin]%elem_of_cons; [done|auto].
    + destruct (split sep s) as [|p ps] eqn:Hsplit; [by destruct (split_nonempty sep s)|].
      intros [->|Hin]%elem_of_cons.
      * simpl. rewrite bool_decide_eq_false_2 by done. simpl. apply IH. by left.
      * apply IH. by right.
Qed.

Lemma split_app_sep sep s t :
  free_of sep s = true →
  split sep (s +:+ String sep t) = s :: split sep t.
Proof.
  induction s as [|c s IH]; simpl.
  - intros _. by rewrite decide_True.
  - intros [Hc%negb_true_iff%bool_decide_eq_false Hs]%andb_true_iff.
    rewrite decide_False by done. by rewrite IH.
Qed.

Lemma split_join sep tokens :
  tokens ≠ [] → Forall (λ token, free_of sep token = true) tokens →
  split sep (join (String sep "") tokens) = tokens.
Proof.
  induction tokens as [|token tokens IH]; [done|]. intros _ [Htoken Hrest]%Forall_cons.
  destruct tokens as [|token' tokens].
  - simpl. by apply split_free_of.
  - change (join (String sep "") (token :: token' :: tokens))
      with (token +:+ String sep (join (String sep "") (token' :: tokens))).
    rewrite split_app_sep by done. by rewrite IH.
Qed.

(** The guard of line 115 changes nothing for a string. *)
Lemma parseTimeslots_filter s :
  parseTimeslots s = filter (λ slot, filled (Some slot) = true) (trim <$> split "," s).
Proof.
  unfold parseTimeslots. destruct (filled (Some s)) eqn:Hs; [done|].
  simpl in Hs. apply negb_false_iff, bool_decide_eq_true in Hs as ->. done.
Qed.

Lemma filled_Some s : filled (Some s) = true ↔ s ≠ "".
Proof. simpl. by rewrite negb_true_iff, bool_decide_eq_false. Qed.

(** What a token of [parseTimeslots] is. *)
Lemma elem_of_parseTimeslots slotsStr token :
  token ∈ parseTimeslots slotsStr →
  token ≠ "" ∧ trim token = token ∧ free_of "," token = true
  ∧ ∃ piece, piece ∈ split "," slotsStr ∧ token = trim piece.
Proof.
  rewrite parseTimeslots_filter.
  intros [Hfilled%filled_Some (piece & -> & Hpiece)%list_elem_of_fmap]%list_elem_of_filter.
  split_and!; [done|apply trim_idemp| |by exists piece].
  by eapply free_of_trim, split_pieces_free.
Qed.

(** X18: [parseTimeslots] returns the comma-separated pieces of its
    argument, trimmed, without the empty ones, in their order: no token is
    empty, has white space at either end or contains a comma. *)
Theorem parseTimeslots_tokens slotsStr :
  parseTimeslots slotsStr
  = filter (λ slot, slot ≠ "") (trim <$> split "," slotsStr)
  ∧ ∀ token, token ∈ parseTimeslots slotsStr →
      token ≠ "" ∧ trim token = token ∧ free_of "," token = true.
Proof.
  split.
  - rewrite parseTimeslots_filter. apply list_filter_iff. intros slot. apply filled_Some.
  - intros token (? & ? & ? & _)%elem_of_parseTimeslots. done.
Qed.

Lemma filter_Forall_id {A} (P : A → Prop) `{∀ x, Decision (P x)} (l : list A) :
  Forall P l → filter P l = l.
Proof.
  induction 1 as [|x l Hx Hl IH]; [done|]. by rewrite filter_cons, decide_True, IH.
Qed.

(** X19: tokens written with commas between them are read back in order:
    [parseTimeslots] of the joined tokens is the list of the trimmed
    tokens, when no token contains a comma or is blank. *)
Theorem parseTimeslots_join tokens :
  Forall (λ token, free_of "," token = true ∧ trim token ≠ "") tokens →
  parseTimeslots (join "," tokens) = trim <$> tokens.
Proof.
  intros Htokens. rewrite parseTimeslots_filter.
  destruct tokens as [|token tokens]; [done|].
  rewrite split_join; [|done|by eapply Forall_impl; [done|intros ? []]].
  apply filter_Forall_id, Forall_fmap.
  eapply Forall_impl; [done|]. intros t [_ Ht]. by apply filled_Some.
Qed.

Lemma parseTimeslots_join_witness :
  parseTimeslots (join "," ["1.1 "; " 2.1"]) = trim <$> ["1.1 "; " 2.1"].
Proof.
  apply (parseTimeslots_join ["1.1 "; " 2.1"]).
  apply (bool_decide_unpack _). vm_compute. exact I.
Defined.

End text.

Section courses.
Context (parseInt_text : string → number).

(** What the predicate of the filter says of a row. *)
Lemma existsb_visible (values : list string) :
  existsb (λ value, negb (bool_decide (trim value = ""))) values = true
  ↔ ∃ value, value ∈ values ∧ trim value ≠ "".
Proof.
  rewrite existsb_exists. split.
  - intros (value & Hin%list_elem_of_In & Hvalue).
    exists value. split; [done|]. by apply negb_true_iff, bool_decide_eq_false in Hvalue.
  - intros (value & Hin & Hvalue). exists value. split; [by apply list_elem_of_In|].
    by apply negb_true_iff, bool_decide_eq_false.
Qed.

Lemma kept_cases row :
  (kept row = Normal true ∧ ∃ value, value ∈ (named row).*2 ∧ trim value ≠ "")
  ∨ (kept row = Normal false ∧ parsed_extra row = None
     ∧ ∀ value, value ∈ (named row).*2 → trim value = "")
  ∨ (kept row = Throw (TypeError "value.trim is not a function") ∧ surplus_only row).
Proof.
  unfold kept, surplus_only.
  destruct (existsb (λ value, negb (bool_decide (trim value = ""))) (named row).*2)
    eqn:Hsome.
  - left. apply existsb_visible in Hsome as (value & Hin & Hvalue).
    split; [|by exists value].
    rewrite bool_decide_eq_true_2; [done|].
    unfold keys. rewrite length_fmap, <-(length_fmap snd).
    destruct ((named row).*2); [by apply elem_of_nil in Hin|simpl; lia].
  - assert (∀ value, value ∈ (named row).*2 → trim value = "") as Hblank.
    { intros value Hin. destruct (decide (trim value = "")) as [|Hne]; [done|].
      assert (existsb (λ value, negb (bool_decide (trim value = ""))) (named row).*2 = true)
        as Htrue by (apply existsb_visible; by exists value).
      congruence. }
    destruct (parsed_extra row) as [extra|].
    + right. right. rewrite bool_decide_eq_true_2 by lia. by split_and!.
    + right. left. split_and!; [|done..]. by destruct (bool_decide _).
Qed.

Lemma kept_Throw row e :
  kept row = Throw e ↔ surplus_only row ∧ e = TypeError "value.trim is not a function".
Proof.
  destruct (kept_cases row) as [[Hrow (value & Hin & Hvalue)]|[(Hrow & Hnone & _)|[Hrow Hsurplus]]];
    rewrite Hrow; split; try done.
  - intros [[_ Hblank] _]. by apply Hblank in Hin.
  - intros [[[? Hsome] _] _]. congruence.
  - intros [= <-]. done.
  - by intros [_ ->].
Qed.

Lemma kept_rows_cons row data :
  kept_rows (row :: data)
  = (keep ← kept row; rows ← kept_rows data;
     Normal (if (keep : bool) then row :: rows else rows)).
Proof. done. Qed.

Lemma kept_rows_Normal data rows :
  kept_rows data = Normal rows →
  rows = filter (λ row, kept row = Normal true) data
  ∧ ∀ row, row ∈ data → ¬ surplus_only row.
Proof.
  revert rows. induction data as [|row data IH]; intros rows.
  - intros [= <-]. split; [done|]. by intros ? ?%elem_of_nil.
  - rewrite kept_rows_cons, filter_cons.
    destruct (kept_cases row) as [[Hrow _]|[(Hrow & _)|[Hrow _]]]; rewrite Hrow; [| |done].
    + destruct (kept_rows data) as [rest|e] eqn:Hrest; [|done]. cbn.
      intros [= <-]. destruct (IH rest eq_refl) as [-> Hclean].
      rewrite decide_True by done. split; [done|].
      intros r [->|Hin]%elem_of_cons; [|by apply Hclean].
      intros Hsurplus.
      assert (kept row = Throw (TypeError "value.trim is not a function"))
        by (by apply kept_Throw).
      congruence.
    + destruct (kept_rows data) as [rest|e] eqn:Hrest; [|done]. cbn.
      intros [= <-]. destruct (IH rest eq_refl) as [-> Hclean].
      rewrite decide_False by done. split; [done|].
      intros r [->|Hin]%elem_of_cons; [|by apply Hclean].
      intros Hsurplus.
      assert (kept row = Throw (TypeError "value.trim is not a function"))
        by (by apply kept_Throw).
      congruence.
Qed.

Lemma kept_rows_Throw data e :
  kept_rows data = Throw e →
  e = TypeError "value.trim is not a function" ∧ ∃ row, row ∈ data ∧ surplus_only row.
Proof.
  induction data as [|row data IH]; [done|]. rewrite kept_rows_cons.
  destruct (kept row) as [keep|e'] eqn:Hrow; cbn.
  - destruct (kept_rows data) as [rest|e'] eqn:Hrest; cbn; [done|].
    intros [= <-]. destruct (IH eq_refl) as [-> (r & Hin & Hsurplus)].
    split; [done|]. exists r. split; [by right|done].
  - apply kept_Throw in Hrow as [Hsurplus ->].
    intros [= <-]. split; [done|]. exists row. split; [by left|done].
Qed.

Lemma kept_rows_surplus data row :
  row ∈ data → surplus_only row →
  kept_rows data = Throw (TypeError "value.trim is not a function").
Proof.
  intros Hin Hsurplus. destruct (kept_rows data) as [rows|e] eqn:Hrows.
  - apply kept_rows_Normal in Hrows as [_ Hclean]. by destruct (Hclean row Hin).
  - by apply kept_rows_Throw in Hrows as [-> _].
Qed.

(** A successful load went through the filter without an exception. *)
Lemma processCourses_Loaded data courses :
  processCourses parseInt_text data = Loaded courses →
  courses_of_rows parseInt_text 0 (filter (λ row, kept row = Normal true) data)
  = Loaded courses.
Proof.
  unfold processCourses. destruct (kept_rows data) as [rows|e] eqn:Hrows; [|done].
  by apply kept_rows_Normal in Hrows as [-> _].
Qed.

Lemma courses_of_rows_Loaded index rows courses :
  courses_of_rows parseInt_text index rows = Loaded courses →
  Forall2 (λ ir course, course_of_row parseInt_text ir.1 (named ir.2) = Loaded course)
          (zip (seq index (length rows)) rows) courses.
Proof.
  revert index courses. induction rows as [|row rows IH]; intros index courses; simpl.
  - intros [= <-]. constructor.
  - destruct (course_of_row parseInt_text index (named row)) as [course|] eqn:Hrow; [|done].
    destruct (courses_of_rows parseInt_text (S index) rows) as [rest|] eqn:Hrest; [|done].
    intros [= <-]. constructor; [done|]. by apply IH.
Qed.

Lemma courses_of_rows_Rejected index rows message :
  courses_of_rows parseInt_text index rows = Rejected message →
  ∃ i row, row ∈ rows ∧ course_of_row parseInt_text i (named row) = Rejected message.
Proof.
  revert index. induction rows as [|row rows IH]; intros index; simpl; [done|].
  destruct (course_of_row parseInt_text index (named row)) as [course|m] eqn:Hrow.
  - destruct (courses_of_rows parseInt_text (S index) rows) as [rest|m] eqn:Hrest; [done|].
    intros [= <-]. destruct (IH _ Hrest) as (i & row' & Hin & Hrej).
    exists i, row'. split; [by right|done].
  - intros [= <-]. exists index, row. split; [by left|done].
Qed.

Lemma course_of_row_Rejected index fields message :
  course_of_row parseInt_text index fields = Rejected message ↔
  (filled (get "course" fields) = false ∨ filled (get "teacher" fields) = false
   ∨ filled (get "section" fields) = false)
  ∧ message = "Missing required fields in course data. Required fields: course, teacher, section, lectures".
Proof.
  unfold course_of_row.
  destruct (filled (get "course" fields)), (filled (get "teacher" fields)),
    (filled (get "section" fields)); simpl; split;
    try (intros [= <-]; split; [tauto|done]);
    try (intros [_ ->]; done);
    try done; intros [[?|[?|?]] _]; done.
Qed.

(** X20: [processCourses] numbers the courses 0, 1, 2, ... in the order of
    the rows it keeps, one course per kept row: the ids of a run are
    distinct. *)
Theorem loaded_courses_have_distinct_ids data courses :
  processCourses parseInt_text data = Loaded courses →
  id <$> courses = Z.of_nat <$> seq 0 (length courses)
  ∧ length courses = length (filter (λ row, kept row = Normal true) data)
  ∧ NoDup (id <$> courses).
Proof.
  intros Hrows%processCourses_Loaded.
  revert Hrows. generalize (filter (λ row, kept row = Normal true) data) as rows.
  intros rows Hrows%courses_of_rows_Loaded.
  assert (∀ index rows courses,
            Forall2 (λ ir course,
                       course_of_row parseInt_text ir.1 (named ir.2) = Loaded course)
                    (zip (seq index (length rows)) rows) courses →
            id <$> courses = Z.of_nat <$> seq index (length courses)
            ∧ length courses = length rows) as Hids.
  { clear. intros index rows. revert index.
    induction rows as [|row rows IH]; intros index courses; simpl.
    - by intros ->%Forall2_nil_inv_l.
    - intros (course & rest & Hrow & Hrest%IH & ->)%Forall2_cons_inv_l.
      destruct Hrest as [Hrest Hlen]. split; [|simpl; by rewrite Hlen].
      rewrite fmap_cons.
      change (seq index (length (course :: rest)))
        with (index :: seq (S index) (length rest)).
      rewrite fmap_cons, Hrest. f_equal.
      simpl in Hrow. unfold course_of_row in Hrow.
      destruct (_ || _); [done|]. by injection Hrow as <-. }
  destruct (Hids _ _ _ Hrows) as [Hid Hlen]. split_and!; [done..|].
  rewrite Hid. apply NoDup_fmap_2; [apply _|apply NoDup_seq].
Qed.

(** X21: [processCourses] throws in two cases and no other.  The filter of
    line 180 throws a [TypeError] exactly when some row has surplus fields
    and no named field that is not blank ([trim] is called on the array of
    the surplus fields).  Otherwise the callback of [map] throws exactly
    when a row that passed the filter has no [course], no [teacher] or no
    [section], or an empty one; the message names [lectures] as well, but
    that field is not checked. *)
Theorem course_data_rejected_iff data message :
  processCourses parseInt_text data = Rejected message ↔
  (message = "value.trim is not a function"
   ∧ ∃ row, row ∈ data ∧ surplus_only row)
  ∨ (message = "Missing required fields in course data. Required fields: course, teacher, section, lectures"
     ∧ (∀ row, row ∈ data → ¬ surplus_only row)
     ∧ ∃ row, row ∈ data ∧ kept row = Normal true
              ∧ (filled (get "course" (named row)) = false
                 ∨ filled (get "teacher" (named row)) = false
                 ∨ filled (get "section" (named row)) = false)).
Proof.
  unfold processCourses. split.
  - destruct (kept_rows data) as [rows|e] eqn:Hrows.
    + apply kept_rows_Normal in Hrows as [-> Hclean].
      intros (i & row & Hin & Hrej)%courses_of_rows_Rejected.
      apply list_elem_of_filter in Hin as [Hkept Hin].
      apply course_of_row_Rejected in Hrej as [Hmissing ->].
      right. split_and!; [done..|]. by exists row.
    + apply kept_rows_Throw in Hrows as [-> Hrow]. intros [= <-]. by left.
  - intros [[-> (row & Hin & Hsurplus)]|(-> & Hclean & row & Hin & Hkept & Hmissing)].
    + by rewrite (kept_rows_surplus data row Hin Hsurplus).
    + destruct (kept_rows data) as [rows|e] eqn:Hrows.
      * apply kept_rows_Normal in Hrows as [-> _].
        destruct (courses_of_rows parseInt_text 0
                    (filter (λ row, kept row = Normal true) data))
          as [courses|message] eqn:Hall.
        -- apply courses_of_rows_Loaded in Hall.
           assert (row ∈ filter (λ row, kept row = Normal true) data) as Hrow
             by (by apply list_elem_of_filter).
           apply list_elem_of_lookup in Hrow as [i Hi].
           assert (zip (seq 0 (length (filter (λ row, kept row = Normal true) data)))
                       (filter (λ row, kept row = Normal true) data) !! i
                   = Some (i, row)) as Hzip.
           { apply lookup_zip_with_Some. exists i, row. split_and!; [done| |done].
             apply lookup_seq. split; [done|]. by eapply lookup_lt_Some. }
           destruct (Forall2_lookup_l _ _ _ _ _ Hall Hzip) as (course & _ & Hcourse).
           simpl in Hcourse.
           assert (course_of_row parseInt_text i (named row)
                   = Rejected "Missing required fields in course data. Required fields: course, teacher, section, lectures")
             as Hrej by (by apply course_of_row_Rejected).
           congruence.
        -- apply courses_of_rows_Rejected in Hall as (i & r & _ & Hrej).
           by apply course_of_row_Rejected in Hrej as [_ ->].
      * apply kept_rows_Throw in Hrows as [_ (r & Hr & Hsurplus)].
        by destruct (Hclean r Hr).
Qed.

(** X22: what a course built by [processCourses] looks like: its lectures
    are never 0, and 1 when the row has no [lectures] field; its priority
    is 1 or 2, and 1 as soon as it has a preferred slot; no preferred slot
    is empty or untrimmed; it has at least one section and a score of 0. *)
Theorem loaded_courses_are_well_formed data courses i course :
  processCourses parseInt_text data = Loaded courses →
  courses !! i = Some course →
  ∃ row, filter (λ row, kept row = Normal true) data !! i = Some row
    ∧ id course = Z.of_nat i
    ∧ lectures course ≠ 0
    ∧ (get "lectures" (named row) = None → lectures course = 1)
    ∧ (priority course = 1 ∨ priority course = 2)
    ∧ (prefs course ≠ [] → priority course = 1)
    ∧ (filled (get "slots" (named row)) = false →
       priority course = 2 ∧ prefs course = [])
    ∧ (∀ slot, slot ∈ prefs course → slot ≠ "" ∧ trim slot = slot)
    ∧ section course ≠ ∅
    ∧ conflicts course = 0.
Proof.
  intros Hall%processCourses_Loaded%courses_of_rows_Loaded Hi.
  destruct (Forall2_lookup_r _ _ _ _ _ Hall Hi) as ([i' row] & Hzip & Hrow).
  apply lookup_zip_with_Some in Hzip as (i'' & row' & [= <- <-] & Hseq & Hrow').
  apply lookup_seq in Hseq as [-> _]. simpl in Hrow.
  exists row. split; [done|].
  unfold course_of_row in Hrow. destruct (_ || _) eqn:Hcheck; [done|].
  injection Hrow as <-. simpl.
  apply orb_false_iff in Hcheck as [[_ _]%orb_false_iff Hsection%negb_false_iff].
  split_and!.
  - done.
  - destruct (parseInt_field parseInt_text (get "lectures" (named row))) as [|z];
      simpl; [done|].
    destruct (decide (z = 0)) as [->|Hz]; [done|].
    by rewrite bool_decide_eq_false_2.
  - by intros ->.
  - destruct (_ && _); auto.
  - intros Hprefs. destruct (filled (get "slots" (named row))) eqn:Hslots.
    + simpl. case_bool_decide as Hblank; [|done]. destruct Hprefs.
      rewrite parseTimeslots_filter, split_free_of
        by (by apply whitespace_free_of).
      simpl. rewrite Hblank. done.
    + destruct Hprefs. destruct (get "slots" (named row)) as [slots|]; [|done].
      simpl in Hslots. apply negb_false_iff, bool_decide_eq_true in Hslots as ->. done.
  - intros Hslots. rewrite Hslots. split; [done|].
    destruct (get "slots" (named row)) as [slots|]; [|done].
    simpl in Hslots. apply negb_false_iff, bool_decide_eq_true in Hslots as ->. done.
  - intros slot (? & ? & _)%elem_of_parseTimeslots. done.
  - destruct (split "," (or_empty (get "section" (named row)))) as [|piece pieces]
      eqn:Hsplit; [by apply split_nonempty in Hsplit|].
    simpl. set_solver.
  - done.
Qed.

End courses.

Lemma loaded_courses_have_distinct_ids_witness :
  NoDup (id <$> match processCourses (λ s, parseInt (Some s))
                        [algebra_row; blank_row; logic_row] with
                | Loaded courses => courses
                | Rejected _ => []
                end).
Proof.
  apply (loaded_courses_have_distinct_ids (λ s, parseInt (Some s))
           [algebra_row; blank_row; logic_row]).
  vm_compute. reflexivity.
Defined.

Lemma loaded_courses_are_well_formed_witness :
  ∃ row, filter (λ row, kept row = Normal true) [algebra_row; blank_row; logic_row] !! 1%nat
         = Some row
         ∧ lectures (mkCourse 1 "Logic" "Godel" {["B"]} 1 2 [] 0) ≠ 0.
Proof.
  destruct (loaded_courses_are_well_formed (λ s, parseInt (Some s))
              [algebra_row; blank_row; logic_row]
              [mkCourse 0 "Algebra" "Noether" (list_to_set ["A"; "B"]) 2 1 ["1.1"; "2.1"] 0;
               mkCourse 1 "Logic" "Godel" (list_to_set ["B"]) 1 2 [] 0]
              1 (mkCourse 1 "Logic" "Godel" {["B"]} 1 2 [] 0))
    as (row & Hrow & _ & Hlectures & _).
  - vm_compute. reflexivity.
  - vm_compute. reflexivity.
  - exists row. split; [exact Hrow | exact Hlectures].
Defined.

Section unavailability.


End unavailability.

(** ** The handler as a whole *)

Section outcomes.
Context (parseInt_text : string → number).

Lemma processCourses_Rejected data message :
  processCourses parseInt_text data = Rejected message →
  message = "value.trim is not a function"
  ∨ message = "Missing required fields in course data. Required fields: course, teacher, section, lectures".
Proof.
  unfold processCourses. destruct (kept_rows data) as [rows|e] eqn:Hrows.
  - intros (i & row & _ & Hrow)%courses_of_rows_Rejected.
    apply course_of_row_Rejected in Hrow as [_ ->]. by right.
  - apply kept_rows_Throw in Hrows as [-> _]. intros [= <-]. by left.
Qed.

(** The three kinds of result [scheduler] returns. *)
Lemma scheduler_result_kinds courses days rooms unavail r :
  scheduler courses days rooms unavail = Returns r →
  (r_error r = None ∧ r_unassigned r = [])
  ∨ (r_error r = Some "Unable to schedule all classes." ∧ r_unassigned r ≠ [])
  ∨ (∃ e, r = unexpected e).
Proof.
  unfold scheduler. destruct (init_schedule days) as [sched|]; [|done].
  destruct (run courses sched rooms unavail) as [r'|e] eqn:Hrun.
  - intros [= ->]. apply run_Normal in Hrun as (st & un & _ & _ & _ & -> & ->).
    case_bool_decide; [right; left|left]; (split; [done|]).
    + intros ->. simpl in *. lia.
    + destruct un; [done|simpl in *; lia].
  - intros [= <-]. right. right. by exists e.
Qed.


End outcomes.
